(** * Provider-record normalization and enrichment pipeline

    A shallow embedding of the scripts under [python-scripts/]:
    - [mn_ccap_scraper.py]: the column mapper ([parse_providers]), the
      normalized CSV writer, the HTML record extractor and the batch
      mode of [main];
    - [enrich_providers.py]: the environment file, the address key, the
      enrichment client ([enrich_row]) and the batch orchestrator (the
      loop of [main]).

    Python [str] values are modelled as [string]; a character is a code
    point below 256, classified as Python classifies the Latin-1 block.
    Python's [str] is Unicode: a statement below that speaks of letter
    case speaks of these characters. A [dict] whose keys are strings is
    a [gmap string _]. *)

From Stdlib Require Import NArith Ascii String List Lia.
From stdpp Require Import gmap strings list sorting.

Local Open Scope N_scope.

(* ================================================================== *)
(** * Part I: definitions *)
(* ================================================================== *)

(** ** Python [str] primitives *)

Module Str.

Definition code (c : ascii) : N := N_of_ascii c.

Definition in_range (lo hi : N) (c : ascii) : bool :=
  (lo <=? code c) && (code c <=? hi).

Definition is_code (n : N) (c : ascii) : bool := code c =? n.

(** [str.isspace] on one character: TAB..CR, FS..US, SPACE, NEL, NBSP. *)
Definition isspace (c : ascii) : bool :=
  in_range 9 13 c || in_range 28 32 c || is_code 133 c || is_code 160 c.

(** Cased letters that [str.lower] changes: A-Z and the Latin-1 capitals
    (all of 192..222 but the multiplication sign 215). *)
Definition isupper (c : ascii) : bool :=
  in_range 65 90 c || in_range 192 214 c || in_range 216 222 c.

Definition isalpha (c : ascii) : bool :=
  in_range 65 90 c || in_range 97 122 c
  || is_code 170 c || is_code 181 c || is_code 186 c
  || in_range 192 214 c || in_range 216 246 c || in_range 248 255 c.

(** Decimal digits, superscript digits and the vulgar fractions. *)
Definition isnumeric (c : ascii) : bool :=
  in_range 48 57 c || is_code 178 c || is_code 179 c || is_code 185 c
  || in_range 188 190 c.

(** [str.isalnum] on one character. *)
Definition isalnum (c : ascii) : bool := isalpha c || isnumeric c.

Definition lower_char (c : ascii) : ascii :=
  if isupper c then ascii_of_N (code c + 32) else c.

(** [s.lower()] *)
Fixpoint lower (s : string) : string :=
  match s with
  | EmptyString => EmptyString
  | String c s' => String (lower_char c) (lower s')
  end.

(** ["".join(ch for ch in s if p(ch))] *)
Fixpoint keep (p : ascii -> bool) (s : string) : string :=
  match s with
  | EmptyString => EmptyString
  | String c s' => if p c then String c (keep p s') else keep p s'
  end.

(** [sep.join(parts)] *)
Fixpoint join (sep : string) (parts : list string) : string :=
  match parts with
  | [] => ""
  | [p] => p
  | p :: rest => p +:+ sep +:+ join sep rest
  end.

(** [s.split()]: maximal runs of non-whitespace characters. [word]
    holds the characters of the run being scanned, newest first. *)
Fixpoint split_go (word : string) (s : string) : list string :=
  match s with
  | EmptyString =>
      match word with
      | EmptyString => []
      | _ => [String.rev word]
      end
  | String c s' =>
      if isspace c then
        match word with
        | EmptyString => split_go "" s'
        | _ => String.rev word :: split_go "" s'
        end
      else split_go (String c word) s'
  end.

Definition split (s : string) : list string := split_go "" s.

(** [s.lstrip()], [s.rstrip()], [s.strip()] *)
Fixpoint lstrip (s : string) : string :=
  match s with
  | EmptyString => EmptyString
  | String c s' => if isspace c then lstrip s' else s
  end.

Definition rstrip (s : string) : string :=
  String.rev (lstrip (String.rev s)).

Definition strip (s : string) : string := rstrip (lstrip s).

(** [s.startswith(p)] *)
Definition startswith (p s : string) : bool := String.prefix p s.

(** Truth value of a [str]: non-empty. *)
Definition truthy (s : string) : bool :=
  match s with
  | EmptyString => false
  | _ => true
  end.

End Str.

(** ** Dictionaries *)

(** [d.get(k, "")] on a [Dict[str, str]]. *)
Definition get (d : gmap string string) (k : string) : string :=
  default "" (d !! k).

(** [d.setdefault(k, v)], for its effect on [d]. *)
Definition setdefault {V} (k : string) (v : V) (d : gmap string V)
  : gmap string V :=
  match d !! k with
  | Some _ => d
  | None => <[k := v]> d
  end.

(** ** Column mapper ([mn_ccap_scraper.py]) *)

Module Scraper.

(** A value of the normalized [Dict[str, Any]]: a string, or the raw
    upstream row kept under ["raw_row"]. *)
Inductive value :=
| VStr (s : string)
| VRow (raw : gmap string string).

(** The mapping table of [parse_providers], in the order it is written
    (a [dict] iterates in insertion order). *)
Definition column_map : list (string * string) :=
  [ ("LicenseNumber", "license_number");
    ("License #", "license_number");
    ("License Holder Name", "provider_name");
    ("Provider Name", "provider_name");
    ("Doing Business As", "doing_business_as");
    ("DBA Name", "doing_business_as");
    ("License Type", "license_type");
    ("City", "city");
    ("State", "state");
    ("Zip", "zip");
    ("County", "county");
    ("Status", "status");
    ("License Status", "status");
    ("Address", "address");
    ("Street Address", "address") ].

(** One iteration of [for src_col, norm_col in column_map.items()]. A cell
    the CSV reader leaves as [None] is falsy like the empty string, so a
    row is modelled by its string cells. *)
Definition map_column (row : gmap string string)
    (normalized : gmap string value) (entry : string * string)
  : gmap string value :=
  let '(src_col, norm_col) := entry in
  match row !! src_col with
  | Some v =>
      if Str.truthy v then <[norm_col := VStr (Str.strip v)]> normalized
      else normalized
  | None => normalized
  end.

Definition map_columns (table : list (string * string))
    (row : gmap string string) (normalized : gmap string value)
  : gmap string value :=
  foldl (map_column row) normalized table.

(** The [setdefault] calls of [parse_providers], in source order. *)
Definition apply_defaults (normalized : gmap string value)
  : gmap string value :=
  setdefault "address" (VStr "")
    (setdefault "status" (VStr "")
      (setdefault "county" (VStr "")
        (setdefault "zip" (VStr "")
          (setdefault "state" (VStr "MN")
            (setdefault "city" (VStr "")
              (setdefault "license_type" (VStr "")
                (setdefault "provider_name" (VStr "")
                  (setdefault "license_number" (VStr "") normalized)))))))).

(** The body of [for row in reader]. *)
Definition normalize_row (row : gmap string string) : gmap string value :=
  let normalized := {[ "raw_row" := VRow row ]} in
  let normalized := map_columns column_map row normalized in
  apply_defaults normalized.

(** [parse_providers], over the rows the CSV reader yields. *)
Definition parse_providers (reader : list (gmap string string))
  : list (gmap string value) :=
  normalize_row <$> reader.

(** What the table selects for canonical field [k]: the trimmed value of
    the last entry that maps to [k] and is present and non-empty in the
    row. Used to state what [map_columns] computes. *)
Fixpoint mapped_value (table : list (string * string))
    (row : gmap string string) (k : string) : option string :=
  match table with
  | [] => None
  | (src_col, norm_col) :: rest =>
      match mapped_value rest row k with
      | Some v => Some v
      | None =>
          if decide (norm_col = k) then
            match row !! src_col with
            | Some v => if Str.truthy v then Some (Str.strip v) else None
            | None => None
            end
          else None
      end
  end.

(** The default the [setdefault] calls supply for key [k], read off the
    calls in source order. *)
Definition default_of (k : string) : option value :=
  if decide (k = "license_number") then Some (VStr "")
  else if decide (k = "provider_name") then Some (VStr "")
  else if decide (k = "license_type") then Some (VStr "")
  else if decide (k = "city") then Some (VStr "")
  else if decide (k = "state") then Some (VStr "MN")
  else if decide (k = "zip") then Some (VStr "")
  else if decide (k = "county") then Some (VStr "")
  else if decide (k = "status") then Some (VStr "")
  else if decide (k = "address") then Some (VStr "")
  else None.

(** Field [k] is supplied by the row: some source column that the table
    maps to [k] is present with a non-empty value. *)
Definition supplied (row : gmap string string) (k : string) : Prop :=
  ∃ src_col v, (src_col, k) ∈ column_map ∧ row !! src_col = Some v ∧ v ≠ "".

(** The ten core fields, in the order of [out_fields]. *)
Definition out_fields : list string :=
  [ "license_number"; "provider_name"; "doing_business_as";
    "license_type"; "status"; "address"; "city"; "state"; "zip";
    "county" ].

(** The text a CSV cell gets for a value read with [p.get(field, "")]. *)
Definition cell (v : option value) : string :=
  match v with
  | Some (VStr s) => s
  | _ => ""
  end.

(** [write_normalized_csv]: the header and the rows under it. *)
Definition write_normalized_csv (providers : list (gmap string value))
  : list string * list (list string) :=
  (out_fields, (λ p, (λ field, cell (p !! field)) <$> out_fields) <$> providers).

End Scraper.

(** ** Address key ([enrich_providers.py]) *)

Module Enrich.

(** [ch.isalnum() or ch.isspace()] *)
Definition alnum_or_space (ch : ascii) : bool :=
  Str.isalnum ch || Str.isspace ch.

(** The first three assignments to [key] in [normalize_address_key]. *)
Definition address_composite (row : gmap string string) : string :=
  let parts := [ get row "address"; get row "city"; get row "state";
                 get row "zip" ] in
  let key := Str.lower (Str.join " " parts) in
  let key := Str.keep alnum_or_space key in
  Str.join " " (Str.split key).

Definition normalize_address_key (row : gmap string string) : string :=
  let key := address_composite row in
  if negb (Str.truthy key) then
    let name := Str.lower (get row "provider_name") in
    let name := Str.keep alnum_or_space name in
    Str.join " " (Str.split name)
  else key.

(** *** Rows and the remote service *)

Definition build_query (row : gmap string string) : string :=
  let parts := [ get row "provider_name"; get row "address";
                 get row "city"; get row "state"; get row "zip" ] in
  Str.join ", " (List.filter Str.truthy parts).

(** [k.startswith("places_")] *)
Definition is_places_field (k : string) : bool :=
  Str.startswith "places_" k.

Definition extract_places_fields (row : gmap string string)
  : gmap string string :=
  filter (λ kv, is_places_field kv.1 = true) row.

(** A search result: a non-empty JSON object, seen through the keys
    [enrich_row] reads. [None] is an absent key. A number is carried as
    the text [str()] prints for it. *)
Record place := {
  r_place_id : option string;
  r_name : option string;
  r_formatted_address : option string;
  r_business_status : option string;
  r_rating : option string;
  r_user_ratings_total : option string
}.

Record latlng := { lat : option string; lng : option string }.

Record geometry := { location : option latlng }.

(** A details result, likewise: [None] is an absent key, and a key
    that is present is not [null]. *)
Record details := {
  d_geometry : option geometry;
  d_website : option string;
  d_formatted_phone_number : option string;
  d_international_phone_number : option string;
  d_types : option (list string);
  d_url : option string;
  d_name : option string;
  d_formatted_address : option string;
  d_business_status : option string;
  d_rating : option string;
  d_user_ratings_total : option string
}.

(** A response: [raise_for_status()] raises, or [resp.json()]. *)
Inductive http (A : Type) :=
| HttpError
| HttpOk (data : A).
Arguments HttpError {A}.
Arguments HttpOk {A} data.

(** The body of a text-search response. An element of [results] that
    is [None] stands for a falsy one ([None] or an empty object). *)
Record search_data := {
  s_status : option string;
  s_results : option (list (option place))
}.

(** The body of a details response; a falsy ["result"] is [None]. *)
Record details_data := {
  dd_status : option string;
  dd_result : option details
}.

(** What a run does, in order. *)
Inductive event :=
| EvSearch (query : string)      (* GET .../textsearch/json *)
| EvDetails (place_id : string)  (* GET .../details/json *)
| EvSleep                        (* time.sleep(sleep_seconds) *)
| EvSet (k v : string).          (* row[k] = v *)

(** The exceptions of the runs described here. An answer of the
    service is taken to be a JSON object of the shape the Places API
    documents, none of its fields [null], and the pause between calls
    not to be negative. On other inputs the source raises further
    exceptions ([AttributeError] on a [null] geometry, [TypeError] on a
    [null] result list, a decoding error on a body that is not JSON,
    [ValueError] on a negative pause); no statement below speaks of
    them, and none says that the exceptions here are the only ones. *)
Inductive exn := HTTPError | IndexError.

(** The remote service: its answer to a request, given the events of
    the run so far. *)
Record remote := {
  text_search : list event → string → http search_data;
  place_details : list event → string → http details_data
}.

(** Computations that append to the trace and may raise. *)
Definition M (A : Type) : Type := list event → (exn + A) * list event.

#[export] Instance M_ret : MRet M := λ A a t, (inr a, t).

#[export] Instance M_bind : MBind M := λ A B f m t,
  match m t with
  | (inl e, t') => (inl e, t')
  | (inr a, t') => f a t'
  end.

Definition raise {A} (e : exn) : M A := λ t, (inl e, t).

Definition emit (ev : event) : M unit := λ t, (inr tt, t ++ [ev]).

Definition is_remote_call (ev : event) : bool :=
  match ev with
  | EvSearch _ | EvDetails _ => true
  | _ => false
  end.

Definition is_details_call (ev : event) : bool :=
  match ev with
  | EvDetails _ => true
  | _ => false
  end.

(** [ev] assigns key [k]. *)
Definition sets (k : string) (ev : event) : bool :=
  match ev with
  | EvSet k' _ => bool_decide (k' = k)
  | _ => false
  end.

(** [session.get(url, params=...)] of [places_text_search]. *)
Definition get_search (R : remote) (query : string) : M (http search_data) :=
  λ t, (inr (text_search R t query), t ++ [EvSearch query]).

(** [session.get(url, params=...)] of [places_details]. *)
Definition get_details (R : remote) (place_id : string)
  : M (http details_data) :=
  λ t, (inr (place_details R t place_id), t ++ [EvDetails place_id]).

Definition places_text_search (R : remote) (query : string)
  : M (option place) :=
  resp ← get_search R query;
  match resp with
  | HttpError => raise HTTPError
  | HttpOk data =>
      if bool_decide (s_status data = Some "OK") then
        match s_results data with
        | None => mret None                 (* [None][0] *)
        | Some [] => raise IndexError
        | Some (first :: _) => mret first
        end
      else mret None
  end.

Definition places_details (R : remote) (place_id : string)
  : M (option details) :=
  resp ← get_details R place_id;
  match resp with
  | HttpError => raise HTTPError
  | HttpOk data =>
      if bool_decide (dd_status data = Some "OK") then mret (dd_result data)
      else mret None
  end.

(** [time.sleep(sleep_seconds)], for a pause that is not negative. *)
Definition sleep : M unit := emit EvSleep.

(** [row[k] = v] *)
Definition set_item (k v : string) (row : gmap string string)
  : M (gmap string string) :=
  λ t, (inr (<[k := v]> row), t ++ [EvSet k v]).

(** A run of assignments [row[k] = v], in order. *)
Fixpoint set_items (kvs : list (string * string)) (row : gmap string string)
  : M (gmap string string) :=
  match kvs with
  | [] => mret row
  | (k, v) :: rest => row' ← set_item k v row; set_items rest row'
  end.

(** The row after the assignments [kvs], and the events they leave. *)
Definition assign (kvs : list (string * string)) (row : gmap string string)
  : gmap string string :=
  foldl (λ r kv, <[kv.1 := kv.2]> r) row kvs.

Definition writes (kvs : list (string * string)) : list event :=
  (λ kv, EvSet kv.1 kv.2) <$> kvs.

(** The assignments of the no-result branch. *)
Definition no_match_fields (query : string) : list (string * string) :=
  [ ("places_query", query); ("places_status", "NO_MATCH") ].

(** The assignments that copy the search result. *)
Definition search_fields (query place_id : string) (result : place)
  : list (string * string) :=
  [ ("places_query", query);
    ("places_place_id", place_id);
    ("places_name", default "" (r_name result));
    ("places_formatted_address", default "" (r_formatted_address result));
    ("places_business_status", default "" (r_business_status result));
    ("places_rating", default "" (r_rating result));
    ("places_user_ratings_total",
     default "" (r_user_ratings_total result)) ].

(** The assignments of the [if details:] branch. *)
Definition details_fields (d : details) : list (string * string) :=
  let loc := default {| lat := None; lng := None |}
               (location (default {| location := None |} (d_geometry d))) in
  [ ("places_lat", default "" (lat loc));
    ("places_lng", default "" (lng loc));
    ("places_website", default "" (d_website d));
    ("places_phone", default "" (d_formatted_phone_number d));
    ("places_intl_phone", default "" (d_international_phone_number d));
    ("places_types", Str.join "," (default [] (d_types d)));
    ("places_url", default "" (d_url d));
    ("places_details_name", default "" (d_name d));
    ("places_details_address", default "" (d_formatted_address d));
    ("places_details_status", default "" (d_business_status d));
    ("places_details_rating", default "" (d_rating d));
    ("places_details_user_ratings_total",
     default "" (d_user_ratings_total d));
    ("places_status", "OK") ].

Definition enrich_row (R : remote) (row : gmap string string)
  : M (gmap string string) :=
  let query := build_query row in
  result ← places_text_search R query;
  _ ← sleep;
  match result with
  | None => set_items (no_match_fields query) row
  | Some result =>
      let place_id := default "" (r_place_id result) in
      details ← (if Str.truthy place_id then places_details R place_id
                 else mret None);
      _ ← sleep;
      row ← set_items (search_fields query place_id result) row;
      match details with
      | Some details => set_items (details_fields details) row
      | None => set_item "places_status" "NO_DETAILS" row
      end
  end.

(** The search phase yields no result: the service reports a status
    other than ["OK"], or sends no result list, or a first result that
    is empty. *)
Definition search_fails (resp : http search_data) : Prop :=
  ∃ data, resp = HttpOk data
    ∧ (s_status data ≠ Some "OK"
       ∨ s_results data = None
       ∨ ∃ rest, s_results data = Some (None :: rest)).

(** The search phase succeeds with [result] as its first result. *)
Definition search_finds (resp : http search_data) (result : place) : Prop :=
  ∃ data rest, resp = HttpOk data ∧ s_status data = Some "OK"
    ∧ s_results data = Some (Some result :: rest).

(** The details phase fails or returns no result. *)
Definition details_fails (resp : http details_data) : Prop :=
  ∃ data, resp = HttpOk data
    ∧ (dd_status data ≠ Some "OK" ∨ dd_result data = None).

(** The fields that only the details phase writes. *)
Definition is_details_field (k : string) : bool :=
  bool_decide (k ∈ [ "places_lat"; "places_lng"; "places_website";
                     "places_phone"; "places_intl_phone"; "places_types";
                     "places_url" ])
  || Str.startswith "places_details_" k.

(** The record carries no [places_*] field. *)
Definition no_places_fields (row : gmap string string) : Prop :=
  ∀ k, is_places_field k = true → row !! k = None.

(** *** Batch orchestrator: the loop of [main] *)

Record state := {
  cache : gmap string (gmap string string);
  enriched_rows : list (gmap string string)
}.

Definition init : state := {| cache := ∅; enriched_rows := [] |}.

(** [row.update(other)] *)
Definition update (other row : gmap string string)
  : M (gmap string string) :=
  set_items (map_to_list other) row.

(** [cache[cache_key]] when [cache_key and cache_key in cache]. *)
Definition cache_hit (st : state) (cache_key : string)
  : option (gmap string string) :=
  if Str.truthy cache_key then cache st !! cache_key else None.

(** The body of [for idx, row in enumerate(rows, start=1)]. *)
Definition process_row (R : remote) (st : state) (row : gmap string string)
  : M state :=
  let cache_key := normalize_address_key row in
  match cache_hit st cache_key with
  | Some cached_fields =>
      row ← update cached_fields row;
      row ← set_item "places_status" "CACHED" row;
      mret {| cache := cache st;
              enriched_rows := enriched_rows st ++ [row] |}
  | None =>
      enriched ← enrich_row R row;
      let cache' :=
        if Str.truthy cache_key
        then <[cache_key := extract_places_fields enriched]> (cache st)
        else cache st in
      mret {| cache := cache';
              enriched_rows := enriched_rows st ++ [enriched] |}
  end.

Fixpoint main_loop (R : remote) (st : state)
    (rows : list (gmap string string)) : M state :=
  match rows with
  | [] => mret st
  | row :: rest => st' ← process_row R st row; main_loop R st' rest
  end.

(** What [enrich_row] assigns, in order, given what the two phases
    returned. *)
Definition enrich_assignments (query : string) (result : option place)
    (details : option details) : list (string * string) :=
  match result with
  | None => no_match_fields query
  | Some r =>
      search_fields query (default "" (r_place_id r)) r
      ++ match details with
         | Some d => details_fields d
         | None => [ ("places_status", "NO_DETAILS") ]
         end
  end.

(** How many events of [evs] assign key [k]. *)
Definition assignments_to (k : string) (evs : list event) : nat :=
  length (List.filter (sets k) evs).

(** Every cached entry holds only [places_*] fields, [places_status]
    among them. *)
Definition cache_ok (c : gmap string (gmap string string)) : Prop :=
  ∀ key fields, c !! key = Some fields →
    (∀ k, is_Some (fields !! k) → is_places_field k = true)
    ∧ is_Some (fields !! "places_status").

(** [sorted({k for row in enriched_rows for k in row.keys()})] *)
Definition fieldnames (enriched_rows : list (gmap string string))
  : list string :=
  merge_sort String.le (elements (⋃ (dom <$> enriched_rows) : gset string)).

(** The column order the specification gives for the enriched CSV: the
    ten core columns, then the [places_*] columns in sorted order. *)
Definition spec_enriched_columns
    (enriched_rows : list (gmap string string)) : list string :=
  Scraper.out_fields
  ++ List.filter is_places_field (fieldnames enriched_rows).

(** A CSV file: the header and the rows under it. *)
Definition csv : Type := list string * list (list string).

Definition write_enriched (rows : list (gmap string string))
    (fieldnames : list string) : csv :=
  (fieldnames, (λ row, (λ k, get row k) <$> fieldnames) <$> rows).

(** [main], from the rows read to the file written. *)
Definition main (R : remote) (rows : list (gmap string string)) : M csv :=
  st ← main_loop R init rows;
  mret (write_enriched (enriched_rows st) (fieldnames (enriched_rows st))).

End Enrich.

(** The address key as the specification words it. *)
Module KeySpec.

(** Some character of [s] is not whitespace. *)
Fixpoint has_word (s : string) : bool :=
  match s with
  | EmptyString => false
  | String c s' => negb (Str.isspace c) || has_word s'
  end.

(** Collapse runs of whitespace to single spaces, with no leading or
    trailing space. [in_word] tells whether a word precedes. *)
Fixpoint collapse (in_word : bool) (s : string) : string :=
  match s with
  | EmptyString => EmptyString
  | String c s' =>
      if Str.isspace c then
        if in_word && has_word s' then String " " (collapse false s')
        else collapse false s'
      else String c (collapse true s')
  end.

(** Lower-case, keep alphanumerics and whitespace, collapse. *)
Definition normalized (s : string) : string :=
  collapse false (Str.keep Enrich.alnum_or_space (Str.lower s)).

Definition address_key_spec (row : gmap string string) : string :=
  let composite :=
    normalized (get row "address" +:+ " " +:+ get row "city" +:+ " "
                +:+ get row "state" +:+ " " +:+ get row "zip") in
  if decide (composite = "") then normalized (get row "provider_name")
  else composite.

End KeySpec.

(** ** Regular expressions ([re]) *)

Module Re.

(** The patterns the scraper uses, as syntax trees. *)
Inductive re :=
| Eps                                            (* the empty pattern *)
| Chr (c : ascii)                                (* a literal character *)
| Any                                            (* [.] *)
| Cls (neg : bool) (ranges : list (ascii * ascii)) (* [[...]], [[^...]] *)
| Seq (r1 r2 : re)
| Opt (r : re)                                   (* [r?] *)
| Star (greedy : bool) (r : re)                  (* [r*], [r*?] *)
| Grp (n : nat) (r : re)                         (* the [n]-th [(r)] *)
| Bol.                                           (* [^] *)

(** [r+] *)
Definition Plus (r : re) : re := Seq r (Star true r).

(** A run of literal characters. *)
Fixpoint Lit (s : string) : re :=
  match s with
  | EmptyString => Eps
  | String c s' => Seq (Chr c) (Lit s')
  end.

(** [r{n}] *)
Fixpoint Rep (n : nat) (r : re) : re :=
  match n with
  | O => Eps
  | S n' => Seq r (Rep n' r)
  end.

Fixpoint seqs (rs : list re) : re :=
  match rs with
  | [] => Eps
  | r :: rest => Seq r (seqs rest)
  end.

(** The text of the groups matched so far, latest first. *)
Definition caps : Type := list (nat * string).

Definition group (n : nat) (cs : caps) : string :=
  default "" (snd <$> List.find (λ c, Nat.eqb (fst c) n) cs).

Section Matcher.
(** [re.IGNORECASE] and [re.DOTALL]. *)
Variables (ignorecase dotall : bool).

Definition upper_char (c : ascii) : ascii :=
  if Str.in_range 97 122 c || Str.in_range 224 246 c
     || Str.in_range 248 254 c
  then ascii_of_N (Str.code c - 32) else c.

Definition chr_eq (a c : ascii) : bool :=
  if ignorecase then Ascii.eqb (Str.lower_char a) (Str.lower_char c)
  else Ascii.eqb a c.

Definition in_ranges (ranges : list (ascii * ascii)) (c : ascii) : bool :=
  existsb (λ r, Str.in_range (Str.code (fst r)) (Str.code (snd r)) c)
    ranges.

Definition in_class (ranges : list (ascii * ascii)) (c : ascii) : bool :=
  if ignorecase
  then in_ranges ranges c || in_ranges ranges (Str.lower_char c)
       || in_ranges ranges (upper_char c)
  else in_ranges ranges c.

(** Backtracking match of [r] at offset [pos], where [s] is the text
    from [pos] on; [k] continues with the rest of the pattern. The
    alternatives are tried in the order the [re] module tries them. *)
Fixpoint run {X} (r : re) (pos : nat) (s : string) (cs : caps)
    (k : nat → string → caps → option X) {struct r} : option X :=
  match r with
  | Eps => k pos s cs
  | Chr a =>
      match s with
      | String c s' => if chr_eq a c then k (S pos) s' cs else None
      | EmptyString => None
      end
  | Any =>
      match s with
      | String c s' =>
          if dotall || negb (Ascii.eqb c "010") then k (S pos) s' cs
          else None
      | EmptyString => None
      end
  | Cls neg ranges =>
      match s with
      | String c s' =>
          if xorb neg (in_class ranges c) then k (S pos) s' cs else None
      | EmptyString => None
      end
  | Seq r1 r2 =>
      run r1 pos s cs (λ pos' s' cs', run r2 pos' s' cs' k)
  | Opt r1 =>
      match run r1 pos s cs k with
      | Some x => Some x
      | None => k pos s cs
      end
  | Star greedy r1 =>
      (fix loop (fuel pos : nat) (s : string) (cs : caps) : option X :=
         match fuel with
         | O => k pos s cs
         | S fuel' =>
             if greedy then
               match run r1 pos s cs
                       (λ pos' s' cs',
                          if (pos <? pos')%nat then loop fuel' pos' s' cs'
                          else None) with
               | Some x => Some x
               | None => k pos s cs
               end
             else
               match k pos s cs with
               | Some x => Some x
               | None =>
                   run r1 pos s cs
                     (λ pos' s' cs',
                        if (pos <? pos')%nat then loop fuel' pos' s' cs'
                        else None)
               end
         end) (S (String.length s)) pos s cs
  | Grp n r1 =>
      run r1 pos s cs
        (λ pos' s' cs',
           k pos' s' ((n, String.substring 0 (pos' - pos) s) :: cs'))
  | Bol => if Nat.eqb pos 0 then k pos s cs else None
  end.

(** A match of [r] that starts at [pos]: where it ends, the text
    after it and the groups. *)
Definition match_at (r : re) (pos : nat) (s : string)
  : option (nat * string * caps) :=
  run r pos s [] (λ pos' s' cs, Some (pos', s', cs)).

(** [re.match(r, s)]: the groups. *)
Definition re_match (r : re) (s : string) : option caps :=
  (λ m, snd m) <$> match_at r 0 s.

(** The leftmost match at or after [pos]. *)
Fixpoint search_from (r : re) (pos : nat) (s : string)
  : option (nat * string * caps) :=
  match match_at r pos s with
  | Some m => Some m
  | None =>
      match s with
      | String _ s' => search_from r (S pos) s'
      | EmptyString => None
      end
  end.

(** [re.search(r, s)]: the groups. *)
Definition re_search (r : re) (s : string) : option caps :=
  (λ m, snd m) <$> search_from r 0 s.

(** [re.sub(r, repl, s)] for a pattern that matches no empty text and
    a replacement without group references. [skip] counts the
    characters left of the match being replaced. *)
Fixpoint sub_go (r : re) (repl : string) (skip pos : nat) (s : string)
  : string :=
  match skip with
  | S skip' =>
      match s with
      | String _ s' => sub_go r repl skip' (S pos) s'
      | EmptyString => EmptyString
      end
  | O =>
      match match_at r pos s, s with
      | Some (pos', _, _), String _ s' =>
          repl +:+ sub_go r repl (pos' - pos - 1) (S pos) s'
      | None, String c s' => String c (sub_go r repl 0 (S pos) s')
      | _, EmptyString => EmptyString
      end
  end.

Definition sub (r : re) (repl s : string) : string := sub_go r repl 0 0 s.

(** [r.finditer(s)] for a pattern that matches no empty text: the
    groups of the successive matches. *)
Fixpoint finditer_go (r : re) (skip pos : nat) (s : string) : list caps :=
  match skip with
  | S skip' =>
      match s with
      | String _ s' => finditer_go r skip' (S pos) s'
      | EmptyString => []
      end
  | O =>
      match match_at r pos s, s with
      | Some (pos', _, cs), String _ s' =>
          cs :: finditer_go r (pos' - pos - 1) (S pos) s'
      | None, String _ s' => finditer_go r 0 (S pos) s'
      | _, EmptyString => []
      end
  end.

Definition finditer (r : re) (s : string) : list caps :=
  finditer_go r 0 0 s.

End Matcher.

End Re.

(** ** HTML record extractor ([mn_ccap_scraper.py]) *)

Module Html.
Import Re.

(** [s.splitlines()]: the line boundaries among the characters below
    256 are LF, VT, FF, CR (CR LF counts once), FS, GS, RS and NEL. *)
Definition is_linebreak (c : ascii) : bool :=
  Str.in_range 10 13 c || Str.in_range 28 30 c || Str.is_code 133 c.

Fixpoint splitlines_go (line : string) (s : string) : list string :=
  match s with
  | EmptyString =>
      match line with
      | EmptyString => []
      | _ => [String.rev line]
      end
  | String c s' =>
      if is_linebreak c then
        String.rev line ::
          match s' with
          | String c' s'' =>
              if Ascii.eqb c "013" && Ascii.eqb c' "010"
              then splitlines_go "" s''
              else splitlines_go "" s'
          | EmptyString => []
          end
      else splitlines_go (String c line) s'
  end.

Definition splitlines (s : string) : list string := splitlines_go "" s.

(** [s.endswith(suffix)] *)
Definition endswith (suffix s : string) : bool :=
  String.prefix (String.rev suffix) (String.rev s).

(** [s.replace(old, new)] for a non-empty [old]. [skip] counts the
    characters left of the occurrence being replaced. *)
Fixpoint replace_go (old new : string) (skip : nat) (s : string) : string :=
  match s with
  | EmptyString => EmptyString
  | String c s' =>
      match skip with
      | S skip' => replace_go old new skip' s'
      | O =>
          if String.prefix old s
          then new +:+ replace_go old new (String.length old - 1) s'
          else String c (replace_go old new 0 s')
      end
  end.

Definition replace (old new s : string) : string := replace_go old new 0 s.

(** ['&' in s] *)
Fixpoint has_amp (s : string) : bool :=
  match s with
  | EmptyString => false
  | String c s' => Ascii.eqb c "&" || has_amp s'
  end.

(** The character classes of the patterns. *)
Definition not_gt : re := Cls true [ (">", ">") ]%char.
Definition upper_AZ : re := Cls false [ ("A", "Z") ]%char.
Definition license_chars : re :=
  Cls false [ ("A", "Z"); ("a", "z"); ("0", "9"); ("-", "-") ]%char.

(** A backslash in a pattern written as [\\] inside a raw string: the
    pattern text holds two backslashes, which [re] reads as one literal
    backslash. *)
Definition backslash : re := Chr "\".

(** [r"<br\\s*/?>"] *)
Definition br_pattern : re :=
  seqs [ Lit "<br"; backslash; Star true (Chr "s"); Opt (Chr "/"); Chr ">" ].

(** [r"<[^>]+>"] *)
Definition tag_pattern : re := seqs [ Chr "<"; Plus not_gt; Chr ">" ].

(** [r"^(.*?),\\s*([A-Z]{2})\\s+(\\d{5})"] *)
Definition city_state_zip_pattern : re :=
  seqs [ Bol; Grp 1 (Star false Any); Chr ",";
         backslash; Star true (Chr "s");
         Grp 2 (Rep 2 upper_AZ);
         backslash; Plus (Chr "s");
         Grp 3 (Seq backslash (Rep 5 (Chr "d"))) ].

(** [r"License number:\\s*([A-Za-z0-9-]+)"] *)
Definition license_number_pattern : re :=
  seqs [ Lit "License number:"; backslash; Star true (Chr "s");
         Grp 1 (Plus license_chars) ].

(** [r"Type of service:\\s*(.+)"] *)
Definition license_type_pattern : re :=
  seqs [ Lit "Type of service:"; backslash; Star true (Chr "s");
         Grp 1 (Plus Any) ].

(** [name="value"] in a pattern, and in a text. *)
Definition dquote : ascii := "034".

Definition Attr (name value : string) : re :=
  seqs [ Lit name; Chr "="; Chr dquote; Lit value; Chr dquote ].

Definition attr (name value : string) : string :=
  name +:+ "=" +:+ String dquote value +:+ String dquote "".

(** The pattern of [parse_providers_html], piece by piece as the raw
    strings are written. *)
Definition listing_pattern : re :=
  seqs [ Lit "<table "; Attr "border" "0"; Chr " ";
         Attr "class" "LicTable1"; Chr ">"; Star false Any;
         Attr "class" "LicTitle1"; Star true not_gt; Chr ">";
         backslash; Star true (Chr "s"); Lit "<a"; Star true not_gt; Chr ">";
         Grp 1 (Star false Any); Lit "</a>"; Star false Any;
         Attr "class" "LicStatus1"; Star true not_gt; Chr ">";
         backslash; Star true (Chr "s");
         Grp 2 (Star false Any); Lit "</td>"; Star false Any;
         Lit "<table"; backslash; Plus (Chr "s"); Attr "border" "0";
         backslash; Plus (Chr "s"); Attr "class" "LicTable"; Chr ">";
         Star false Any;
         Attr "class" "LicContentL"; Star true not_gt; Chr ">";
         backslash; Star true (Chr "s");
         Grp 3 (Star false Any); Lit "</td>"; Star false Any;
         Attr "class" "LicContentR"; Star true not_gt; Chr ">";
         backslash; Star true (Chr "s");
         Grp 4 (Star false Any); Lit "</td>" ].

Section Extractor.
(** What [html.unescape] does to a text that holds an ampersand: the
    substitution of character references, from Python's table. *)
Variable replace_charrefs : string → string.

(** [html.unescape(s)] *)
Definition unescape (s : string) : string :=
  if has_amp s then replace_charrefs s else s.

Definition _clean_html_block (text : string) : list string :=
  let text := sub true false br_pattern (String "010" "") text in
  let text := sub false false tag_pattern "" text in
  let text := unescape text in
  List.filter Str.truthy (Str.strip <$> splitlines text).

(** [city, state, zip_code] after the [if len(left_lines) >= 2]. *)
Definition city_state_zip (left_lines : list string)
  : string * string * string :=
  match left_lines with
  | _ :: city_state_zip :: _ =>
      match re_match false false city_state_zip_pattern city_state_zip with
      | Some m => (Str.strip (group 1 m), group 2 m, group 3 m)
      | None => ("", "", "")
      end
  | _ => ("", "", "")
  end.

(** [county] after the loop over [left_lines[2:]]. *)
Definition county_of (left_lines : list string) : string :=
  foldl (λ county line,
           if endswith "County" line
           then Str.strip (replace "County" "" line) else county)
    "" (drop 2 left_lines).

(** The body of [for match in pattern.finditer(html_text)]. *)
Definition record_of_match (m : caps) : gmap string Scraper.value :=
  let provider_name := Str.strip (unescape (group 1 m)) in
  let status := Str.strip (unescape (group 2 m)) in
  let left_block := group 3 m in
  let right_block := group 4 m in
  let left_lines := _clean_html_block left_block in
  let right_text := unescape (sub false false tag_pattern "" right_block) in
  let address := default "" (head left_lines) in
  let '(city, state, zip_code) := city_state_zip left_lines in
  let county := county_of left_lines in
  let license_number :=
    match re_search false false license_number_pattern right_text with
    | Some m => Str.strip (group 1 m)
    | None => ""
    end in
  let license_type :=
    match re_search false false license_type_pattern right_text with
    | Some m => Str.strip (group 1 m)
    | None => ""
    end in
  list_to_map
    [ ("raw_row", Scraper.VRow (list_to_map [ ("left_block", left_block);
                                              ("right_block", right_block) ]));
      ("license_number", Scraper.VStr license_number);
      ("provider_name", Scraper.VStr provider_name);
      ("license_type", Scraper.VStr license_type);
      ("status", Scraper.VStr status);
      ("address", Scraper.VStr address);
      ("city", Scraper.VStr city);
      ("state", Scraper.VStr (if Str.truthy state then state else "MN"));
      ("zip", Scraper.VStr zip_code);
      ("county", Scraper.VStr county) ].

Definition parse_providers_html (html_text : string)
  : list (gmap string Scraper.value) :=
  record_of_match <$> finditer true true listing_pattern html_text.

End Extractor.

End Html.

(** ** Shapes of texts *)

Module Shape.

(** Every character of [s] satisfies [p]. *)
Fixpoint all_chars (p : ascii → bool) (s : string) : bool :=
  match s with
  | EmptyString => true
  | String c s' => p c && all_chars p s'
  end.

(** Whitespace in [s] is the space character only, one at a time, never
    last, and first only where [may_space] allows it. *)
Fixpoint tidy (may_space : bool) (s : string) : bool :=
  match s with
  | EmptyString => true
  | String c s' =>
      if Str.isspace c
      then Ascii.eqb c " " && may_space && Str.truthy s' && tidy false s'
      else tidy true s'
  end.

(** A character of an address key: a space, or alphanumeric. *)
Definition key_char (c : ascii) : bool :=
  Ascii.eqb c " " || Str.isalnum c.

(** [s] does not start with a whitespace character. *)
Definition starts_clean (s : string) : bool :=
  match s with
  | EmptyString => true
  | String c _ => negb (Str.isspace c)
  end.

(** [s] is [v] trimmed of surrounding whitespace, as the specification
    words it: [v] is [s] between two runs of whitespace, and [s] neither
    starts nor ends with whitespace. *)
Definition trimmed_of (v s : string) : Prop :=
  ∃ l r, v = l +:+ s +:+ r
    ∧ all_chars Str.isspace l = true ∧ all_chars Str.isspace r = true
    ∧ starts_clean s = true ∧ starts_clean (String.rev s) = true.

End Shape.

(** ** Runs of the enrichment stage *)

Module Runs.
Import Enrich.

(** The details phase succeeds with [d] as its result. *)
Definition details_finds (resp : http details_data) (d : details) : Prop :=
  ∃ data, resp = HttpOk data ∧ dd_status data = Some "OK"
    ∧ dd_result data = Some d.

Definition is_search_call (ev : event) : bool :=
  match ev with
  | EvSearch _ => true
  | _ => false
  end.

(** How many events of [evs] satisfy [p]. *)
Definition count (p : event → bool) (evs : list event) : nat :=
  length (List.filter p evs).

(** Every remote call in [evs] is directly followed by a sleep. *)
Fixpoint polite (evs : list event) : bool :=
  match evs with
  | [] => true
  | ev :: rest =>
      (if is_remote_call ev
       then match rest with
            | EvSleep :: _ => true
            | _ => false
            end
       else true)
      && polite rest
  end.

(** [out] is [row] but for its [places_*] fields. *)
Definition same_but_places (row out : gmap string string) : Prop :=
  ∀ k, is_places_field k = false → out !! k = row !! k.

(** [out] was served from the cache. *)
Definition served_from_cache (out : gmap string string) : bool :=
  bool_decide (out !! "places_status" = Some "CACHED").

(** [out] carries every [places_*] field of [src], [places_status]
    apart. *)
Definition repeats (src out : gmap string string) : Prop :=
  ∀ k v, is_places_field k = true → k ≠ "places_status" →
         src !! k = Some v → out !! k = Some v.

(** The record [out] at index [i] of [outs] has a source before it: a
    record of the same, non-empty address key that was looked up and
    whose [places_*] fields [out] carries. *)
Definition has_source (outs : list (gmap string string)) (i : nat)
    (out : gmap string string) : Prop :=
  ∃ j src, (j < i)%nat ∧ outs !! j = Some src
    ∧ normalize_address_key src = normalize_address_key out
    ∧ normalize_address_key out ≠ ""
    ∧ served_from_cache src = false
    ∧ repeats src out.

(** What the loop of [main] keeps true of its cache and its output. *)
Record consistent (st : state) : Prop := {
  cache_fields : cache_ok (cache st);
  (* an entry is the [places_*] part of an output record of its key *)
  cache_source : ∀ key fields, cache st !! key = Some fields →
    key ≠ ""
    ∧ ∃ j src, enriched_rows st !! j = Some src
        ∧ normalize_address_key src = key
        ∧ served_from_cache src = false
        ∧ fields = extract_places_fields src;
  (* the key of every output record is cached, unless empty *)
  cache_complete : ∀ j out, enriched_rows st !! j = Some out →
    normalize_address_key out ≠ "" →
    is_Some (cache st !! normalize_address_key out);
  (* a record served from the cache has a source before it *)
  rows_source : ∀ i out, enriched_rows st !! i = Some out →
    served_from_cache out = true → has_source (enriched_rows st) i out;
  (* a record whose key occurred before is served from the cache *)
  rows_first : ∀ i j out r, enriched_rows st !! i = Some out →
    enriched_rows st !! j = Some r → (j < i)%nat →
    normalize_address_key r = normalize_address_key out →
    normalize_address_key out ≠ "" → served_from_cache out = true
}.

End Runs.

(** ** Environment file ([enrich_providers.py]) *)

Module Env.

(** ["=" in line] *)
Fixpoint has_eq (line : string) : bool :=
  match line with
  | EmptyString => false
  | String c rest => Ascii.eqb c "=" || has_eq rest
  end.

(** [line.split("=", 1)] for a line that holds ["="]: the text before
    the first ["="] and the text after it. *)
Fixpoint split_eq (line : string) : string * string :=
  match line with
  | EmptyString => ("", "")
  | String c rest =>
      if Ascii.eqb c "=" then ("", rest)
      else let '(key, value) := split_eq rest in (String c key, value)
  end.

(** [s.lstrip(chars)], [s.rstrip(chars)], [s.strip(chars)], the set
    [chars] given by its membership test. *)
Fixpoint lstrip_chars (p : ascii → bool) (s : string) : string :=
  match s with
  | EmptyString => EmptyString
  | String c s' => if p c then lstrip_chars p s' else s
  end.

Definition rstrip_chars (p : ascii → bool) (s : string) : string :=
  String.rev (lstrip_chars p (String.rev s)).

Definition strip_chars (p : ascii → bool) (s : string) : string :=
  rstrip_chars p (lstrip_chars p s).

(** The set of the second [strip] applied to [value]: the double and
    the single quote character. *)
Definition is_quote (c : ascii) : bool :=
  Ascii.eqb c Html.dquote || Ascii.eqb c "'".

(** A NUL character in [s]; [os.environ[key] = value] raises
    [ValueError] on one in the key or in the value. *)
Fixpoint has_nul (s : string) : bool :=
  match s with
  | EmptyString => false
  | String c rest => Ascii.eqb c "000" || has_nul rest
  end.

(** The body of [for line in ...splitlines()], on [os.environ];
    [None] stands for the [ValueError]. *)
Definition load_line (environ : gmap string string) (line : string)
  : option (gmap string string) :=
  let line := Str.strip line in
  if negb (Str.truthy line) || Str.startswith "#" line || negb (has_eq line)
  then Some environ
  else
    let '(key, value) := split_eq line in
    let key := Str.strip key in
    let value := strip_chars is_quote (Str.strip value) in
    if Str.truthy key && bool_decide (environ !! key = None)
    then
      if has_nul key || has_nul value then None
      else Some (<[key := value]> environ)
    else Some environ.

Fixpoint load_lines (lines : list string) (environ : gmap string string)
  : option (gmap string string) :=
  match lines with
  | [] => Some environ
  | line :: rest =>
      match load_line environ line with
      | Some environ' => load_lines rest environ'
      | None => None
      end
  end.

(** [load_env_file]; [file] is the text at [path], [None] when the path
    does not exist. *)
Definition load_env_file (file : option string)
    (environ : gmap string string) : option (gmap string string) :=
  match file with
  | None => Some environ
  | Some text => load_lines (Html.splitlines text) environ
  end.

End Env.

(** ** Batch mode of the scraper ([main] of [mn_ccap_scraper.py]) *)

(** [main] called with a list of ZIP codes and without [--html-file],
    from the reading of the ZIP list to the end of the function. The HAR
    file and the ZIP list exist, the first has given [export_method] and
    the second holds [zips_text]; files are written without error; what
    is printed, to either stream, is left out. *)
Module Batch.

(** What a run does, in order. *)
Inductive event :=
| EvDownload (zip_code : string)       (* the [try:] block *)
| EvWriteText (name text : string)     (* raw_path.write_text(...) *)
| EvWriteCsv (name : string) (file : list string * list (list string))
                                       (* write_normalized_csv(...) *)
| EvSleep.                             (* time.sleep(sleep_seconds) *)

Inductive exn := AttributeError.

(** How [main] ends: with [return code], or with an exception that
    nothing catches. *)
Inductive outcome :=
| Returned (code : nat)
| Raised (e : exn).

(** The variables that the loop assigns and the code after it reads. *)
Record state := {
  csv_text : option string;            (* [None] as in Python *)
  combined_providers : list (gmap string Scraper.value)
}.

(** [text.lstrip().startswith("<!DOCTYPE html>")] *)
Definition is_html_page (text : string) : bool :=
  Str.startswith "<!DOCTYPE html>" (Str.lstrip text).

Definition raw_name (zip_code ext : string) : string :=
  "mn_ccap_raw_" +:+ zip_code +:+ ext.

Definition out_name (zip_code : string) : string :=
  "mn_ccap_providers_" +:+ zip_code +:+ ".csv".

Definition nonempty {A} (l : list A) : bool :=
  match l with
  | [] => false
  | _ => true
  end.

(** [[z.strip() for z in text.splitlines() if z.strip()]] *)
Definition zip_codes_of (zips_text : string) : list string :=
  List.filter Str.truthy (Str.strip <$> Html.splitlines zips_text).

Section Main.
(** [html.unescape] on a text with an ampersand, and
    [csv.DictReader(csv_text.splitlines())] as the list of its rows. *)
Variable replace_charrefs : string → string.
Variable read_csv : string → list (gmap string string).
(** The [try:] block of the request numbered [idx], for [zip_code]: the
    text downloaded, or [None] when an exception is caught. *)
Variable download : nat → string → option string.
(** [use_html], and [sleep_seconds > 0]. *)
Variable use_html : bool.
Variable sleeps : bool.

(** From [combined_providers.extend(providers)] to the end of the loop
    body; [more] is [idx < len(zip_codes)]. *)
Definition keep_providers (more : bool) (st : state) (zip_code : string)
    (providers : list (gmap string Scraper.value)) (t : list event)
  : state * list event :=
  ({| csv_text := csv_text st;
      combined_providers := combined_providers st ++ providers |},
   t ++ [ EvWriteCsv (out_name zip_code)
            (Scraper.write_normalized_csv providers) ]
     ++ (if more && sleeps then [EvSleep] else [])).

(** The body of [for idx, zip_code in enumerate(zip_codes, start=1)]. *)
Definition process_zip (idx : nat) (more : bool) (st : state)
    (zip_code : string) (t : list event) : state * list event :=
  let t := t ++ [EvDownload zip_code] in
  match download idx zip_code with
  | None => (st, t)                    (* except Exception: continue *)
  | Some text =>
      if use_html then
        if negb (is_html_page text) then (st, t)
        else
          keep_providers more st zip_code
            (Html.parse_providers_html replace_charrefs text)
            (t ++ [EvWriteText (raw_name zip_code ".html") text])
      else
        let st := {| csv_text := Some text;
                     combined_providers := combined_providers st |} in
        if is_html_page text then (st, t)
        else
          keep_providers more st zip_code
            (Scraper.parse_providers (read_csv text))
            (t ++ [EvWriteText (raw_name zip_code ".csv") text])
  end.

Fixpoint zip_loop (idx : nat) (st : state) (zip_codes : list string)
    (t : list event) : state * list event :=
  match zip_codes with
  | [] => (st, t)
  | zip_code :: rest =>
      let '(st', t') := process_zip idx (nonempty rest) st zip_code t in
      zip_loop (S idx) st' rest t'
  end.

(** After the loop: the combined file, then the code that every mode of
    [main] ends with. *)
Definition finish (st : state) (t : list event) : outcome * list event :=
  let t := t ++ [ EvWriteCsv "mn_ccap_providers_all.csv"
                    (Scraper.write_normalized_csv (combined_providers st)) ] in
  match csv_text st with
  | None => (Raised AttributeError, t)   (* None.splitlines() *)
  | Some text =>
      (Returned 0,
       t ++ [ EvWriteCsv "mn_ccap_providers.csv"
                (Scraper.write_normalized_csv
                   (Scraper.parse_providers (read_csv text))) ])
  end.

Definition batch (export_method zips_text : string)
  : outcome * list event :=
  let zip_codes := zip_codes_of zips_text in
  if negb (nonempty zip_codes) then (Returned 1, [])
  else if negb use_html && negb (bool_decide (export_method = "POST"))
  then (Returned 1, [])
  else
    let '(st, t) :=
      zip_loop 1 {| csv_text := None; combined_providers := [] |}
        zip_codes [] in
    finish st t.

(** *** Notions used to state what a run did *)

(** The answers to the requests for [zip_codes], the first of them
    numbered [idx]. *)
Fixpoint answers (idx : nat) (zip_codes : list string)
  : list (option string) :=
  match zip_codes with
  | [] => []
  | zip_code :: rest => download idx zip_code :: answers (S idx) rest
  end.

(** The records of an answer that go into the combined file: none for
    a failed request, none for a text of the wrong kind. *)
Definition kept (answer : option string)
  : list (gmap string Scraper.value) :=
  match answer with
  | None => []
  | Some text =>
      if use_html then
        if is_html_page text
        then Html.parse_providers_html replace_charrefs text else []
      else
        if is_html_page text
        then [] else Scraper.parse_providers (read_csv text)
  end.

(** The last text among the answers, [init] when all requests failed. *)
Definition latest (init : option string) (l : list (option string))
  : option string :=
  foldl (λ acc answer, match answer with Some _ => answer | None => acc end)
    init l.

End Main.

(** The ZIP codes requested, in order. *)
Definition downloads (t : list event) : list string :=
  omap (λ ev, match ev with EvDownload z => Some z | _ => None end) t.

End Batch.

(** ** Concrete scenarios *)

(** The row of the spec's concrete scenario. *)
Definition sunny_days_csv : gmap string string :=
  list_to_map [ ("Provider Name", "Sunny Days Daycare"); ("City", "Duluth");
                ("State", "MN"); ("Zip", "55802") ].

(** A row that carries both synonyms of [provider_name]. *)
Definition two_names_csv : gmap string string :=
  list_to_map [ ("License Holder Name", " Old Name ");
                ("Provider Name", " New Name ") ].

(** The record of the spec's concrete scenario. *)
Definition sunny_days : gmap string string :=
  list_to_map [ ("provider_name", "Sunny Days Daycare"); ("address", "");
                ("city", "Duluth"); ("state", "MN"); ("zip", "55802") ].

Definition only_name (name : string) : gmap string string :=
  list_to_map [ ("provider_name", name) ].

(** A service that finds nothing, and one that finds a place but has no
    details for it. *)
Definition no_service : Enrich.remote :=
  {| Enrich.text_search := λ _ _, Enrich.HttpOk
       {| Enrich.s_status := Some "ZERO_RESULTS";
          Enrich.s_results := Some [] |};
     Enrich.place_details := λ _ _, Enrich.HttpError |}.

Definition sunny_place : Enrich.place :=
  {| Enrich.r_place_id := Some "ChIJ1";
     Enrich.r_name := Some "Sunny Days Daycare";
     Enrich.r_formatted_address := Some "Duluth, MN 55802, USA";
     Enrich.r_business_status := Some "OPERATIONAL";
     Enrich.r_rating := Some "4.5";
     Enrich.r_user_ratings_total := Some "12" |}.

Definition search_only_service : Enrich.remote :=
  {| Enrich.text_search := λ _ _, Enrich.HttpOk
       {| Enrich.s_status := Some "OK";
          Enrich.s_results := Some [Some sunny_place] |};
     Enrich.place_details := λ _ _, Enrich.HttpOk
       {| Enrich.dd_status := Some "NOT_FOUND";
          Enrich.dd_result := None |} |}.

(** [sunny_days] as a CSV that was enriched before gives it: it
    carries a [places_*] field already. *)
Definition stale_row : gmap string string :=
  <["places_website" := "https://old.example"]> sunny_days.

(** A state whose cache already holds the key of [sunny_days]. *)
Definition no_match_entry : gmap string string :=
  list_to_map [ ("places_query", "Sunny Days Daycare, Duluth, MN, 55802");
                ("places_status", "NO_MATCH") ].

Definition warm_state : Enrich.state :=
  {| Enrich.cache := list_to_map [ ("duluth mn 55802", no_match_entry) ];
     Enrich.enriched_rows := [] |}.

(** The run of [main] over [sunny_days] with a service that finds
    nothing: the events it leaves and the state it reaches. *)
Definition first_trace : list Enrich.event :=
  [ Enrich.EvSearch "Sunny Days Daycare, Duluth, MN, 55802"; Enrich.EvSleep;
    Enrich.EvSet "places_query" "Sunny Days Daycare, Duluth, MN, 55802";
    Enrich.EvSet "places_status" "NO_MATCH" ].

Definition after_first : Enrich.state :=
  {| Enrich.cache := list_to_map [ ("duluth mn 55802", no_match_entry) ];
     Enrich.enriched_rows :=
       [ <["places_status" := "NO_MATCH"]>
           (<["places_query" := "Sunny Days Daycare, Duluth, MN, 55802"]>
              sunny_days) ] |}.

(** A record with all ten core fields. *)
Definition full_row : gmap string string :=
  list_to_map [ ("license_number", "1001");
                ("provider_name", "Sunny Days Daycare");
                ("doing_business_as", "");
                ("license_type", "Child Care Center");
                ("status", "Active"); ("address", "12 Lake Ave");
                ("city", "Duluth"); ("state", "MN"); ("zip", "55802");
                ("county", "St. Louis") ].

Definition full_header : list string :=
  [ "address"; "city"; "county"; "doing_business_as"; "license_number";
    "license_type"; "places_query"; "places_status"; "provider_name";
    "state"; "status"; "zip" ].

(** A listing block in the documented layout, with the two detail
    cells it holds. *)
Definition nl : string := String "010" "".

Definition left_block : string :=
  "12 Lake Ave<br />" +:+ nl +:+ "Duluth, MN 55802<br />" +:+ nl
  +:+ "St. Louis County".

Definition right_block : string :=
  "License number: 1001<br />" +:+ nl
  +:+ "Type of service: Child Care Center".

Definition listing_html : string :=
  "<table " +:+ Html.attr "border" "0" +:+ " "
  +:+ Html.attr "class" "LicTable1" +:+ "><tr><td "
  +:+ Html.attr "class" "LicTitle1" +:+ "><a "
  +:+ Html.attr "href" "Details.aspx?l=1001"
  +:+ ">Sunny Days Daycare</a></td><td " +:+ Html.attr "class" "LicStatus1"
  +:+ ">Active</td></tr></table>" +:+ nl
  +:+ "<table " +:+ Html.attr "border" "0" +:+ " "
  +:+ Html.attr "class" "LicTable" +:+ "><tr><td "
  +:+ Html.attr "class" "LicContentL" +:+ ">" +:+ left_block +:+ "</td><td "
  +:+ Html.attr "class" "LicContentR" +:+ ">" +:+ right_block
  +:+ "</td></tr></table>".

(** The groups the listing pattern is meant to capture from
    [listing_html]. *)
Definition listing_groups : Re.caps :=
  [ (1%nat, "Sunny Days Daycare"); (2%nat, "Active"); (3%nat, left_block);
    (4%nat, right_block) ].

(** The city pattern with each [\\] of the source read as the single
    backslash of a class escape: [r"^(.*?),\s*([A-Z]{2})\s+(\d{5})"]. *)
Definition whitespace : Re.re :=
  Re.Cls false [ ("009", "013"); ("028", "032"); ("133", "133");
                 ("160", "160") ]%char.

Definition digit : Re.re := Re.Cls false [ ("0", "9") ]%char.

Definition single_backslash_city_pattern : Re.re :=
  Re.seqs [ Re.Bol; Re.Grp 1 (Re.Star false Re.Any); Re.Chr ",";
            Re.Star true whitespace; Re.Grp 2 (Re.Rep 2 Html.upper_AZ);
            Re.Plus whitespace; Re.Grp 3 (Re.Rep 5 digit) ].

(** [sunny_days] as an upstream source that writes in capitals gives
    it. *)
Definition sunny_days_upper : gmap string string :=
  list_to_map [ ("provider_name", "SUNNY DAYS DAYCARE"); ("address", "");
                ("city", "DULUTH"); ("state", "MN"); ("zip", "55802") ].

(** A service whose requests fail, one whose details requests fail,
    one that answers with an empty result list, and one that finds a
    place and its details. *)
Definition down_service : Enrich.remote :=
  {| Enrich.text_search := λ _ _, Enrich.HttpError;
     Enrich.place_details := λ _ _, Enrich.HttpError |}.

Definition details_down_service : Enrich.remote :=
  {| Enrich.text_search := λ _ _, Enrich.HttpOk
       {| Enrich.s_status := Some "OK";
          Enrich.s_results := Some [Some sunny_place] |};
     Enrich.place_details := λ _ _, Enrich.HttpError |}.

Definition empty_ok_service : Enrich.remote :=
  {| Enrich.text_search := λ _ _, Enrich.HttpOk
       {| Enrich.s_status := Some "OK"; Enrich.s_results := Some [] |};
     Enrich.place_details := λ _ _, Enrich.HttpError |}.

Definition sunny_details : Enrich.details :=
  {| Enrich.d_geometry :=
       Some {| Enrich.location :=
                 Some {| Enrich.lat := Some "46.78"; Enrich.lng := Some "-92.1" |} |};
     Enrich.d_website := Some "https://sunnydays.example";
     Enrich.d_formatted_phone_number := Some "(218) 555-0100";
     Enrich.d_international_phone_number := Some "+1 218-555-0100";
     Enrich.d_types := Some [ "point_of_interest"; "establishment" ];
     Enrich.d_url := Some "https://maps.example/?cid=1";
     Enrich.d_name := Some "Sunny Days Daycare";
     Enrich.d_formatted_address := Some "Duluth, MN 55802, USA";
     Enrich.d_business_status := Some "OPERATIONAL";
     Enrich.d_rating := Some "4.5";
     Enrich.d_user_ratings_total := Some "12" |}.

Definition full_service : Enrich.remote :=
  {| Enrich.text_search := λ _ _, Enrich.HttpOk
       {| Enrich.s_status := Some "OK";
          Enrich.s_results := Some [Some sunny_place] |};
     Enrich.place_details := λ _ _, Enrich.HttpOk
       {| Enrich.dd_status := Some "OK";
          Enrich.dd_result := Some sunny_details |} |}.

(** The run of [main] over [sunny_days] twice: the second record is
    served from the cache. *)
Definition cached_sunny : gmap string string :=
  <["places_status" := "CACHED"]> (no_match_entry ∪ sunny_days).

Definition after_second : Enrich.state :=
  {| Enrich.cache := Enrich.cache after_first;
     Enrich.enriched_rows := Enrich.enriched_rows after_first ++ [cached_sunny] |}.

Definition second_trace : list Enrich.event :=
  first_trace ++ Enrich.writes (map_to_list no_match_entry)
    ++ [ Enrich.EvSet "places_status" "CACHED" ].

(** A service that answers the first request of a run and fails
    afterwards. *)
Definition flaky_service : Enrich.remote :=
  {| Enrich.text_search := λ t _,
       match t with
       | [] => Enrich.HttpOk {| Enrich.s_status := Some "ZERO_RESULTS";
                                Enrich.s_results := Some [] |}
       | _ => Enrich.HttpError
       end;
     Enrich.place_details := λ _ _, Enrich.HttpError |}.

(** [sunny_days_csv] with a column that the mapping table does not
    name. *)
Definition sunny_days_noted : gmap string string :=
  <["Notes" := "call before noon"]> sunny_days_csv.

(** An environment file that names the API key twice, and a process
    environment that has it already. *)
Definition env_text : string :=
  "# Google Places" +:+ nl +:+ "GOOGLE_API_KEY = 'abc123'" +:+ nl
  +:+ "GOOGLE_API_KEY=other" +:+ nl.

Definition shell_environ : gmap string string :=
  {[ "GOOGLE_API_KEY" := "from-shell" ]}.

Definition file_environ : gmap string string :=
  {[ "GOOGLE_API_KEY" := "abc123" ]}.

(** A batch over two ZIP codes of which the second request fails. *)
Definition zips_text : string :=
  "55802" +:+ nl +:+ " " +:+ nl +:+ "55803" +:+ nl.

Definition duluth_export : string := "City" +:+ nl +:+ "Duluth".

Definition toy_reader (csv_text : string) : list (gmap string string) :=
  if bool_decide (csv_text = duluth_export)
  then [ {[ "City" := "Duluth" ]} ] else [].

Definition csv_answers (idx : nat) (zip_code : string) : option string :=
  match idx with
  | 1%nat => Some duluth_export
  | _ => None
  end.

Definition html_answers (idx : nat) (zip_code : string) : option string :=
  match idx with
  | 1%nat => Some "<!DOCTYPE html><html><body></body></html>"
  | _ => None
  end.

(* ================================================================== *)
(** * Part II: properties *)
(* ================================================================== *)

(** Close [x = y] between closed terms by evaluating both sides. *)
Ltac vm_refl :=
  match goal with
  | |- ?x = ?y => vm_cast_no_check (@eq_refl _ y)
  end.

(** ** Dictionaries *)

Lemma lookup_setdefault {V} (k k' : string) (v : V) (d : gmap string V) :
  setdefault k v d !! k' =
    match d !! k' with
    | Some x => Some x
    | None => if decide (k' = k) then Some v else None
    end.
Proof.
  unfold setdefault. destruct (d !! k) eqn:Hk.
  - destruct (d !! k') eqn:Hk'; [reflexivity|].
    destruct (decide (k' = k)) as [->|]; congruence.
  - destruct (decide (k' = k)) as [->|Hne].
    + rewrite lookup_insert_eq, Hk. reflexivity.
    + rewrite lookup_insert_ne by congruence. destruct (d !! k'); reflexivity.
Qed.

Lemma truthy_nonempty (s : string) : Str.truthy s = true ↔ s ≠ "".
Proof. destruct s; simpl; split; congruence. Qed.

(** ** Column mapper *)

Module ScraperFacts.
Import Scraper.

Lemma lookup_map_column row normalized src_col norm_col k :
  map_column row normalized (src_col, norm_col) !! k =
    match mapped_value [(src_col, norm_col)] row k with
    | Some v => Some (VStr v)
    | None => normalized !! k
    end.
Proof.
  simpl. destruct (row !! src_col) as [v|] eqn:Hrow.
  - destruct (Str.truthy v).
    + rewrite lookup_insert. by case_decide.
    + by case_decide.
  - by case_decide.
Qed.

(** What the loop over the table leaves under key [k]. *)
Lemma lookup_map_columns table row normalized k :
  map_columns table row normalized !! k =
    match mapped_value table row k with
    | Some v => Some (VStr v)
    | None => normalized !! k
    end.
Proof.
  unfold map_columns. revert normalized.
  induction table as [|[src_col norm_col] rest IH]; intros normalized.
  - done.
  - cbn [foldl]. rewrite IH. cbn [mapped_value].
    destruct (mapped_value rest row k); [done|].
    by rewrite lookup_map_column.
Qed.

Lemma mapped_value_Some table row k w :
  mapped_value table row k = Some w →
  ∃ src_col v, (src_col, k) ∈ table ∧ row !! src_col = Some v
               ∧ v ≠ "" ∧ w = Str.strip v.
Proof.
  induction table as [|[src_col norm_col] rest IH]; [done|].
  cbn [mapped_value]. destruct (mapped_value rest row k) as [w'|].
  - intros [= ->]. destruct IH as (s & v & ? & ? & ? & ?); [done|].
    exists s, v. split_and!; [by right|done..].
  - case_decide as Hk; [|done]. subst norm_col.
    destruct (row !! src_col) as [v|] eqn:Hrow; [|done].
    destruct (Str.truthy v) eqn:Hv; [|done]. intros [= <-].
    exists src_col, v. split_and!; [by left|done| |done].
    by apply truthy_nonempty.
Qed.

Lemma mapped_value_is_Some table row k src_col v :
  (src_col, k) ∈ table → row !! src_col = Some v → v ≠ "" →
  is_Some (mapped_value table row k).
Proof.
  intros Hin Hrow Hv. induction table as [|[s n] rest IH].
  - by apply elem_of_nil in Hin.
  - cbn [mapped_value]. apply elem_of_cons in Hin as [[= <- <-]|Hin].
    + destruct (mapped_value rest row k); [by eexists|].
      rewrite decide_True by done. rewrite Hrow.
      apply truthy_nonempty in Hv. rewrite Hv. by eexists.
    + destruct (IH Hin) as [w ->]. by eexists.
Qed.

Lemma mapped_value_None table row k :
  (∀ src_col v, (src_col, k) ∈ table → row !! src_col = Some v → v = "") →
  mapped_value table row k = None.
Proof.
  intros H. destruct (mapped_value table row k) as [w|] eqn:Hm; [|done].
  apply mapped_value_Some in Hm as (s & v & Hin & Hrow & Hv & _).
  by specialize (H _ _ Hin Hrow).
Qed.

(** Last wins: an entry that is present and non-empty, with no entry for
    the same field after it, decides the field. *)
Lemma mapped_value_last table row j src_col k v :
  table !! j = Some (src_col, k) → row !! src_col = Some v → v ≠ "" →
  Forall (λ e, e.2 ≠ k) (drop (S j) table) →
  mapped_value table row k = Some (Str.strip v).
Proof.
  revert j. induction table as [|[s n] rest IH]; intros j Hj Hrow Hv Hlater.
  - done.
  - cbn [mapped_value]. destruct j as [|j]; simpl in Hj, Hlater.
    + injection Hj as -> ->. rewrite drop_0 in Hlater.
      rewrite mapped_value_None.
      * rewrite decide_True by done. rewrite Hrow.
        apply truthy_nonempty in Hv. by rewrite Hv.
      * intros s' v' Hin _. rewrite Forall_forall in Hlater.
        by specialize (Hlater _ Hin).
    + by rewrite (IH j).
Qed.

Lemma lookup_apply_defaults normalized k :
  apply_defaults normalized !! k =
    match normalized !! k with
    | Some x => Some x
    | None => default_of k
    end.
Proof.
  unfold apply_defaults. rewrite !lookup_setdefault.
  destruct (normalized !! k); [reflexivity|]. unfold default_of.
  do 9 (match goal with
        | |- context [decide (k = ?s)] =>
            destruct (decide (k = s)) as [->|?]; [vm_compute; reflexivity|]
        end).
  reflexivity.
Qed.

(** The record of one row, key by key. *)
Lemma lookup_normalize_row row k :
  normalize_row row !! k =
    match mapped_value column_map row k with
    | Some v => Some (VStr v)
    | None => if decide (k = "raw_row") then Some (VRow row)
              else default_of k
    end.
Proof.
  unfold normalize_row. rewrite lookup_apply_defaults, lookup_map_columns.
  destruct (mapped_value column_map row k); [reflexivity|].
  destruct (decide (k = "raw_row")) as [->|Hne].
  - rewrite lookup_singleton_eq. reflexivity.
  - rewrite lookup_singleton_ne by congruence. reflexivity.
Qed.

(** The core fields and their defaults. *)
Lemma core_field_cases f :
  f ∈ out_fields →
  f ≠ "raw_row"
  ∧ (f = "doing_business_as" ∧ default_of f = None
     ∨ f = "state" ∧ default_of f = Some (VStr "MN")
     ∨ f ≠ "doing_business_as" ∧ f ≠ "state"
       ∧ default_of f = Some (VStr "")).
Proof.
  unfold out_fields. intros Hf.
  repeat (apply elem_of_cons in Hf as [->|Hf];
          [split; [discriminate|];
           first [ left; split; [reflexivity|vm_compute; reflexivity]
                 | right; left; split; [reflexivity|vm_compute; reflexivity]
                 | right; right; split_and!;
                   [discriminate|discriminate|vm_compute; reflexivity] ] |]).
  apply elem_of_nil in Hf. destruct Hf.
Qed.

(** In [column_map], an entry that has an earlier synonym has no later
    one. *)
Lemma column_map_later_synonym i j src1 src2 f :
  column_map !! i = Some (src1, f) → column_map !! j = Some (src2, f) →
  (i < j)%nat →
  Forall (λ e, e.2 ≠ f) (drop (S j) column_map).
Proof.
  intros Hi Hj Hlt.
  do 15 (destruct j as [|j]; [
    simpl in Hj; injection Hj as <- <-;
    first [ solve [repeat (constructor; [simpl; discriminate|]); constructor]
          | exfalso;
            do 15 (destruct i as [|i];
                   [first [lia | simpl in Hi; congruence]|]); lia ] |]).
  simpl in Hj. discriminate.
Qed.

End ScraperFacts.

(** C1, as stated, fails: [doing_business_as] is a core field, no
    [setdefault] call covers it, and the record of a row without a DBA
    column has no such key. *)
Lemma normalize_row_lacks_doing_business_as :
  "doing_business_as" ∈ Scraper.out_fields
  ∧ Scraper.normalize_row sunny_days_csv !! "doing_business_as" = None.
Proof.
  split.
  - unfold Scraper.out_fields.
    repeat first [apply list_elem_of_here | apply list_elem_of_further].
  - vm_compute. reflexivity.
Qed.

(** C1 (amended): for every upstream row, the record of the column mapper
    holds a string under each core field other than [doing_business_as];
    a core field that the row does not supply is the empty string, ["MN"]
    for [state], and absent for [doing_business_as]; [doing_business_as]
    is present exactly when the row supplies it. *)
Theorem normalize_row_core_fields (row : gmap string string) :
  let record := Scraper.normalize_row row in
  (∀ f, f ∈ Scraper.out_fields → f ≠ "doing_business_as" →
        ∃ s, record !! f = Some (Scraper.VStr s))
  ∧ (∀ f, f ∈ Scraper.out_fields → ¬ Scraper.supplied row f →
          record !! f =
            if decide (f = "doing_business_as") then None
            else if decide (f = "state") then Some (Scraper.VStr "MN")
            else Some (Scraper.VStr ""))
  ∧ (is_Some (record !! "doing_business_as")
     ↔ Scraper.supplied row "doing_business_as").
Proof.
  intros record. subst record. split_and!.
  - intros f Hf Hdba. rewrite ScraperFacts.lookup_normalize_row.
    destruct (Scraper.mapped_value _ row f) as [w|]; [by eexists|].
    destruct (ScraperFacts.core_field_cases f Hf)
      as [Hraw [[? _]|[[_ Hd]|(_ & _ & Hd)]]]; [congruence|..];
      rewrite decide_False, Hd by exact Hraw; by eexists.
  - intros f Hf Hsup. rewrite ScraperFacts.lookup_normalize_row.
    rewrite ScraperFacts.mapped_value_None.
    + destruct (ScraperFacts.core_field_cases f Hf)
        as [Hraw [[-> Hd]|[[-> Hd]|(Hn1 & Hn2 & Hd)]]];
        rewrite (decide_False (P := _ = "raw_row")), Hd by exact Hraw.
      * rewrite decide_True by reflexivity. reflexivity.
      * rewrite decide_False by discriminate.
        rewrite decide_True by reflexivity. reflexivity.
      * rewrite !decide_False by assumption. reflexivity.
    + intros src_col v Hin Hrow. destruct (decide (v = "")); [assumption|].
      exfalso. apply Hsup. by exists src_col, v.
  - rewrite ScraperFacts.lookup_normalize_row. split.
    + destruct (Scraper.mapped_value _ row _) as [w|] eqn:Hm.
      * intros _.
        apply ScraperFacts.mapped_value_Some in Hm as (s & v & ? & ? & ? & _).
        by exists s, v.
      * intros [x Hx]. vm_compute in Hx. discriminate.
    + intros (s & v & Hin & Hrow & Hv).
      destruct (ScraperFacts.mapped_value_is_Some _ _ _ _ _ Hin Hrow Hv)
        as [w ->].
      by eexists.
Qed.

(** ** Strings *)

Lemma string_app_nil_r (s : string) : s +:+ "" = s.
Proof.
  induction s as [|c s IH]; [reflexivity|].
  change (String c s +:+ "") with (String c (s +:+ "")). by rewrite IH.
Qed.

Lemma string_app_assoc (s1 s2 s3 : string) :
  (s1 +:+ s2) +:+ s3 = s1 +:+ s2 +:+ s3.
Proof.
  induction s1 as [|c s1 IH]; [reflexivity|].
  change ((String c s1 +:+ s2) +:+ s3) with (String c ((s1 +:+ s2) +:+ s3)).
  change (String c s1 +:+ s2 +:+ s3) with (String c (s1 +:+ s2 +:+ s3)).
  by rewrite IH.
Qed.

Lemma string_rev_app (s acc : string) :
  String.rev_app s acc = String.rev s +:+ acc.
Proof.
  revert acc. induction s as [|c s IH]; intros acc; [reflexivity|].
  unfold String.rev. cbn [String.rev_app].
  rewrite (IH (String c acc)), (IH (String c "")).
  by rewrite string_app_assoc.
Qed.

Lemma string_rev_cons (c : ascii) (w : string) :
  String.rev (String c w) = String.rev w +:+ String c "".
Proof. unfold String.rev at 1. cbn [String.rev_app]. apply string_rev_app. Qed.

Lemma join_cons (sep p : string) (rest : list string) :
  Str.join sep (p :: rest) =
    match rest with
    | [] => p
    | _ :: _ => p +:+ sep +:+ Str.join sep rest
    end.
Proof. by destruct rest. Qed.

(** ** Address key *)

Module KeyFacts.
Import KeySpec.

Lemma split_go_word (w s : string) : w ≠ "" → Str.split_go w s ≠ [].
Proof.
  revert w. induction s as [|c s IH]; intros w Hw.
  - simpl. by destruct w.
  - simpl. destruct (Str.isspace c).
    + by destruct w.
    + by apply IH.
Qed.

Lemma split_go_has_word (w s : string) :
  has_word s = true → Str.split_go w s ≠ [].
Proof.
  revert w. induction s as [|c s IH]; intros w; [discriminate|].
  simpl. destruct (Str.isspace c); simpl.
  - intros Hs. destruct w; [by apply IH|discriminate].
  - intros _. by apply split_go_word.
Qed.

Lemma split_go_no_word (s : string) :
  has_word s = false → Str.split_go "" s = [].
Proof.
  induction s as [|c s IH]; [reflexivity|].
  simpl. destruct (Str.isspace c); simpl; [exact IH|discriminate].
Qed.

Lemma collapse_no_word (b : bool) (s : string) :
  has_word s = false → collapse b s = "".
Proof.
  revert b. induction s as [|c s IH]; intros b; [reflexivity|].
  simpl. destruct (Str.isspace c); simpl; [|discriminate].
  intros Hs. rewrite Hs, andb_false_r. by apply IH.
Qed.

(** [" ".join(s.split())], with [w] the word under construction. *)
Lemma join_split_go (s w : string) :
  Str.join " " (Str.split_go w s)
    = String.rev w +:+ collapse (Str.truthy w) s.
Proof.
  revert w. induction s as [|c s IH]; intros w.
  - simpl. destruct w; [reflexivity|]. by rewrite string_app_nil_r.
  - cbn [Str.split_go collapse]. destruct (Str.isspace c) eqn:Hc.
    + destruct w as [|a w].
      * rewrite IH. reflexivity.
      * rewrite join_cons. cbn [Str.truthy andb].
        destruct (has_word s) eqn:Hs.
        -- pose proof (split_go_has_word "" s Hs) as Hne.
           specialize (IH ""). destruct (Str.split_go "" s); [done|].
           rewrite IH. reflexivity.
        -- rewrite (split_go_no_word s Hs), (collapse_no_word false s Hs).
           by rewrite string_app_nil_r.
    + rewrite IH, string_rev_cons, string_app_assoc. reflexivity.
Qed.

Lemma join_split (s : string) :
  Str.join " " (Str.split s) = collapse false s.
Proof. unfold Str.split. by rewrite join_split_go. Qed.

Lemma address_composite_ext (r1 r2 : gmap string string) :
  get r1 "address" = get r2 "address" → get r1 "city" = get r2 "city" →
  get r1 "state" = get r2 "state" → get r1 "zip" = get r2 "zip" →
  Enrich.address_composite r1 = Enrich.address_composite r2.
Proof. unfold Enrich.address_composite. by intros -> -> -> ->. Qed.

End KeyFacts.

(** C3, as stated, fails in its "identical address fields" part: two
    records whose four address fields are identical (all empty) get
    different keys, because the key falls back to the provider name. *)
Lemma address_key_fallback_differs :
  let r1 := only_name "Sunny Days" in
  let r2 := only_name "Happy Kids" in
  get r1 "address" = get r2 "address" ∧ get r1 "city" = get r2 "city"
  ∧ get r1 "state" = get r2 "state" ∧ get r1 "zip" = get r2 "zip"
  ∧ Enrich.normalize_address_key r1 ≠ Enrich.normalize_address_key r2.
Proof.
  cbv zeta. split_and!; [vm_compute; reflexivity..|].
  vm_compute. discriminate.
Qed.

(** C3 (amended): the address key equals the reference definition; two
    records with identical address, city, state and zip get the same key
    when that composite normalizes to a non-empty string or their provider
    names agree; and the record of the concrete scenario gets
    ["duluth mn 55802"]. *)
Theorem normalize_address_key_spec :
  (∀ row, Enrich.normalize_address_key row = KeySpec.address_key_spec row)
  ∧ (∀ r1 r2,
       get r1 "address" = get r2 "address" → get r1 "city" = get r2 "city" →
       get r1 "state" = get r2 "state" → get r1 "zip" = get r2 "zip" →
       Enrich.address_composite r1 ≠ ""
       ∨ get r1 "provider_name" = get r2 "provider_name" →
       Enrich.normalize_address_key r1 = Enrich.normalize_address_key r2)
  ∧ Enrich.normalize_address_key sunny_days = "duluth mn 55802".
Proof.
  split_and!.
  - intros row. unfold Enrich.normalize_address_key, KeySpec.address_key_spec.
    unfold Enrich.address_composite, KeySpec.normalized.
    rewrite !KeyFacts.join_split.
    change (Str.join " " [get row "address"; get row "city";
                          get row "state"; get row "zip"])
      with (get row "address" +:+ " " +:+ get row "city" +:+ " "
            +:+ get row "state" +:+ " " +:+ get row "zip").
    destruct (KeySpec.collapse _ _) as [|c k] eqn:Hk.
    + rewrite decide_True by reflexivity. reflexivity.
    + rewrite decide_False by discriminate. reflexivity.
  - intros r1 r2 Ha Hc Hs Hz Hor.
    unfold Enrich.normalize_address_key.
    rewrite <- (KeyFacts.address_composite_ext r1 r2 Ha Hc Hs Hz).
    destruct (Enrich.address_composite r1) as [|c k] eqn:Hk.
    + destruct Hor as [Hne|Hname]; [done|]. cbn [Str.truthy negb].
      by rewrite Hname.
    + reflexivity.
  - vm_compute. reflexivity.
Qed.

(** ** Enrichment client *)

Module EnrichFacts.
Import Enrich.

Lemma assign_cons k v kvs row :
  assign ((k, v) :: kvs) row = assign kvs (<[k := v]> row).
Proof. reflexivity. Qed.

Lemma writes_cons k v kvs : writes ((k, v) :: kvs) = EvSet k v :: writes kvs.
Proof. reflexivity. Qed.

Lemma set_items_run kvs row t :
  set_items kvs row t = (inr (assign kvs row), t ++ writes kvs).
Proof.
  revert row t. induction kvs as [|[k v] kvs IH]; intros row t.
  - cbn. by rewrite app_nil_r.
  - cbn [set_items]. unfold mbind, M_bind, set_item.
    rewrite IH, assign_cons, writes_cons. by rewrite <- app_assoc.
Qed.

Lemma lookup_assign_notin kvs row k :
  k ∉ kvs.*1 → assign kvs row !! k = row !! k.
Proof.
  revert row. induction kvs as [|[k' v] kvs IH]; intros row Hk; [done|].
  cbn in Hk. apply not_elem_of_cons in Hk as [Hne Hk].
  rewrite assign_cons, IH by done. by rewrite lookup_insert_ne.
Qed.

Lemma lookup_assign_Some kvs row k v :
  NoDup kvs.*1 → (k, v) ∈ kvs → assign kvs row !! k = Some v.
Proof.
  revert row. induction kvs as [|[k' v'] kvs IH]; intros row Hnd Hin.
  - by apply elem_of_nil in Hin.
  - cbn in Hnd. apply NoDup_cons in Hnd as [Hk' Hnd].
    rewrite assign_cons.
    apply elem_of_cons in Hin as [[= -> ->]|Hin].
    + rewrite lookup_assign_notin by done. apply lookup_insert_eq.
    + by apply IH.
Qed.

(** [row.update(other)] leaves [other ∪ row]. *)
Lemma assign_map_to_list (other row : gmap string string) :
  assign (map_to_list other) row = other ∪ row.
Proof.
  apply map_eq. intros k. destruct (other !! k) as [v|] eqn:Hk.
  - rewrite (lookup_union_Some_l _ _ _ _ Hk).
    apply lookup_assign_Some; [apply NoDup_fst_map_to_list|].
    by apply elem_of_map_to_list.
  - rewrite lookup_union_r by done. apply lookup_assign_notin.
    intros Hin. apply list_elem_of_fmap in Hin as [[k' v] [-> Hin]].
    apply elem_of_map_to_list in Hin. cbn in Hk. congruence.
Qed.

(** The outcomes of the search phase. *)
Lemma places_text_search_fails R query t :
  search_fails (text_search R t query) →
  places_text_search R query t = (inr None, t ++ [EvSearch query]).
Proof.
  intros (data & Hresp & Hcase).
  unfold places_text_search, mbind, M_bind, get_search. rewrite Hresp.
  destruct Hcase as [Hst|[Hres|[rest Hres]]].
  - by rewrite bool_decide_eq_false_2.
  - case_bool_decide; [|done]. by rewrite Hres.
  - case_bool_decide; [|done]. by rewrite Hres.
Qed.

Lemma places_text_search_finds R query t result :
  search_finds (text_search R t query) result →
  places_text_search R query t = (inr (Some result), t ++ [EvSearch query]).
Proof.
  intros (data & rest & Hresp & Hst & Hres).
  unfold places_text_search, mbind, M_bind, get_search. rewrite Hresp.
  rewrite bool_decide_eq_true_2 by done. by rewrite Hres.
Qed.

Lemma places_details_fails R place_id t :
  details_fails (place_details R t place_id) →
  places_details R place_id t = (inr None, t ++ [EvDetails place_id]).
Proof.
  intros (data & Hresp & Hcase).
  unfold places_details, mbind, M_bind, get_details. rewrite Hresp.
  destruct Hcase as [Hst|Hres].
  - by rewrite bool_decide_eq_false_2.
  - case_bool_decide; [|done]. by rewrite Hres.
Qed.

(** [enrich_row] when the search phase yields no result. *)
Lemma enrich_row_none R row t :
  places_text_search R (build_query row) t
    = (inr None, t ++ [EvSearch (build_query row)]) →
  enrich_row R row t
    = (inr (assign (no_match_fields (build_query row)) row),
       t ++ [EvSearch (build_query row); EvSleep]
         ++ writes (no_match_fields (build_query row))).
Proof.
  intros Hs. unfold enrich_row, mbind, M_bind. rewrite Hs.
  unfold sleep, emit. rewrite set_items_run.
  by rewrite <- !app_assoc.
Qed.

(** [enrich_row] when the search phase finds [result] and the details
    phase is skipped (no place id) or yields nothing. *)
Lemma enrich_row_search_only R row t result :
  let query := build_query row in
  let place_id := default "" (r_place_id result) in
  search_finds (text_search R t query) result →
  place_id = ""
  ∨ details_fails (place_details R (t ++ [EvSearch query; EvSleep]) place_id) →
  enrich_row R row t
    = (inr (<["places_status" := "NO_DETAILS"]>
              (assign (search_fields query place_id result) row)),
       t ++ [EvSearch query; EvSleep]
         ++ (if Str.truthy place_id then [EvDetails place_id] else [])
         ++ [EvSleep] ++ writes (search_fields query place_id result)
         ++ [EvSet "places_status" "NO_DETAILS"]).
Proof.
  intros query place_id Hs Hd. unfold enrich_row, mbind, M_bind.
  fold query. rewrite (places_text_search_finds R query t result Hs).
  unfold sleep, emit. fold place_id.
  destruct Hd as [Hid|Hd].
  - rewrite Hid. cbn [Str.truthy]. unfold mret, M_ret.
    rewrite set_items_run. unfold set_item.
    by rewrite <- !app_assoc.
  - destruct (Str.truthy place_id) eqn:Hid.
    + rewrite <- app_assoc. cbn [app].
      rewrite (places_details_fails R place_id _ Hd).
      rewrite set_items_run. unfold set_item.
      by rewrite <- !app_assoc.
    + unfold mret, M_ret. rewrite set_items_run. unfold set_item.
      by rewrite <- !app_assoc.
Qed.

Lemma details_field_ne (k s : string) :
  is_details_field k = true → is_details_field s = false → k ≠ s.
Proof. intros Hk Hs ->. congruence. Qed.

Lemma prefix_app_l (p q k : string) :
  String.prefix (p +:+ q) k = true → String.prefix p k = true.
Proof.
  revert k. induction p as [|a p IH]; intros k.
  - by destruct k.
  - destruct k as [|b k]; [done|].
    change (String a p +:+ q) with (String a (p +:+ q)).
    cbn [String.prefix]. destruct (ascii_dec a b); [apply IH|done].
Qed.

Lemma details_field_places (k : string) :
  is_details_field k = true → is_places_field k = true.
Proof.
  unfold is_details_field. intros [Hin|Hp]%orb_true_iff.
  - apply bool_decide_eq_true in Hin.
    repeat (apply elem_of_cons in Hin as [->|Hin]; [reflexivity|]).
    by apply elem_of_nil in Hin.
  - apply (prefix_app_l "places_" "details_" k Hp).
Qed.

(** A details-phase field is none of the keys the search phase
    assigns. *)
Lemma details_field_not_search k query place_id result :
  is_details_field k = true →
  k ≠ "places_status" ∧ k ∉ (search_fields query place_id result).*1.
Proof.
  intros Hk. split.
  - by apply (details_field_ne k _ Hk).
  - cbn. repeat (apply not_elem_of_cons; split;
                 [by apply (details_field_ne k _ Hk)|]).
    apply not_elem_of_nil.
Qed.

(** *** What a successful [enrich_row] did *)

Lemma places_text_search_trace R query t :
  (places_text_search R query t).2 = t ++ [EvSearch query].
Proof.
  unfold places_text_search, mbind, M_bind, get_search.
  destruct (text_search R t query) as [|data]; [done|].
  case_bool_decide; [|done].
  by destruct (s_results data) as [[|first rest]|].
Qed.

Lemma places_details_trace R place_id t :
  (places_details R place_id t).2 = t ++ [EvDetails place_id].
Proof.
  unfold places_details, mbind, M_bind, get_details.
  destruct (place_details R t place_id) as [|data]; [done|].
  by case_bool_decide.
Qed.

Lemma assign_app kvs1 kvs2 row :
  assign (kvs1 ++ kvs2) row = assign kvs2 (assign kvs1 row).
Proof. unfold assign. apply foldl_app. Qed.

Lemma writes_app kvs1 kvs2 : writes (kvs1 ++ kvs2) = writes kvs1 ++ writes kvs2.
Proof. unfold writes. apply fmap_app. Qed.

(** A run of [enrich_row] that returns made its remote calls first and
    then exactly the assignments of [enrich_assignments]. *)
Lemma returned_inj {A} (a b : A) (t t' : list event) :
  (inr a, t) = (@inr exn A b, t') → b = a ∧ t' = t.
Proof. by intros [= -> ->]. Qed.

Lemma enrich_row_inv R row t row' t' :
  enrich_row R row t = (inr row', t') →
  ∃ result details pre,
    row' = assign (enrich_assignments (build_query row) result details) row
    ∧ t' = t ++ pre
             ++ writes (enrich_assignments (build_query row) result details)
    ∧ Forall (λ ev, ∀ k, sets k ev = false) pre.
Proof.
  unfold enrich_row, mbind, M_bind.
  pose proof (places_text_search_trace R (build_query row) t) as Ht.
  destruct (places_text_search R (build_query row) t) as [[e|result] t1];
    [discriminate|].
  cbn in Ht. subst t1. unfold sleep, emit.
  destruct result as [r|].
  - destruct (Str.truthy (default "" (r_place_id r))).
    + pose proof (places_details_trace R (default "" (r_place_id r))
                    ((t ++ [EvSearch (build_query row)]) ++ [EvSleep])) as Hd.
      destruct (places_details R _ _) as [[e|details] t2]; [discriminate|].
      cbn in Hd. subst t2. rewrite set_items_run.
      destruct details as [d|].
      * rewrite set_items_run. intros [-> ->]%returned_inj.
        exists (Some r), (Some d),
          [EvSearch (build_query row); EvSleep;
           EvDetails (default "" (r_place_id r)); EvSleep].
        cbn [enrich_assignments]. rewrite assign_app, writes_app.
        split_and!; [done| |by repeat constructor].
        by rewrite <- !app_assoc.
      * unfold set_item. intros [-> ->]%returned_inj.
        exists (Some r), None,
          [EvSearch (build_query row); EvSleep;
           EvDetails (default "" (r_place_id r)); EvSleep].
        cbn [enrich_assignments]. rewrite assign_app, writes_app.
        split_and!; [done| |by repeat constructor].
        by rewrite <- !app_assoc.
    + unfold mret, M_ret. rewrite set_items_run. unfold set_item.
      intros [-> ->]%returned_inj.
      exists (Some r), None, [EvSearch (build_query row); EvSleep; EvSleep].
      cbn [enrich_assignments]. rewrite assign_app, writes_app.
      split_and!; [done| |by repeat constructor].
      by rewrite <- !app_assoc.
  - rewrite set_items_run. intros [-> ->]%returned_inj.
    exists None, None, [EvSearch (build_query row); EvSleep].
    cbn [enrich_assignments].
    split_and!; [done| |by repeat constructor].
    by rewrite <- !app_assoc.
Qed.

Lemma enrich_assignments_places query result details :
  Forall (λ kv, is_places_field kv.1 = true)
    (enrich_assignments query result details).
Proof.
  destruct result as [r|]; [|by repeat constructor].
  cbn [enrich_assignments]. apply Forall_app. split; [by repeat constructor|].
  destruct details; by repeat constructor.
Qed.

Lemma enrich_assignments_status query result details row :
  ∃ v, assign (enrich_assignments query result details) row
         !! "places_status" = Some v
       ∧ v ∈ [ "OK"; "NO_MATCH"; "NO_DETAILS" ].
Proof.
  destruct result as [r|].
  - cbn [enrich_assignments]. rewrite assign_app. destruct details as [d|].
    + exists "OK". split; [|repeat constructor].
      unfold details_fields. rewrite !assign_cons. apply lookup_insert_eq.
    + exists "NO_DETAILS". split; [|repeat constructor].
      rewrite assign_cons. apply lookup_insert_eq.
  - exists "NO_MATCH". split; [|repeat constructor].
    cbn [enrich_assignments]. unfold no_match_fields.
    rewrite !assign_cons. apply lookup_insert_eq.
Qed.

Lemma assignments_to_app k evs1 evs2 :
  assignments_to k (evs1 ++ evs2)
    = (assignments_to k evs1 + assignments_to k evs2)%nat.
Proof.
  unfold assignments_to. by rewrite List.filter_app, length_app.
Qed.

Lemma assignments_to_none k evs :
  Forall (λ ev, ∀ k, sets k ev = false) evs → assignments_to k evs = 0%nat.
Proof.
  unfold assignments_to. induction 1 as [|ev evs Hev _ IH]; [done|].
  cbn [List.filter]. by rewrite Hev.
Qed.

Lemma enrich_assignments_count query result details :
  assignments_to "places_status"
    (writes (enrich_assignments query result details)) = 1%nat.
Proof. destruct result, details; reflexivity. Qed.

Lemma lookup_assign_frame (P : string → Prop) kvs row k :
  Forall (λ kv, P kv.1) kvs → ¬ P k → assign kvs row !! k = row !! k.
Proof.
  intros Hall Hk. apply lookup_assign_notin. intros Hin.
  apply list_elem_of_fmap in Hin as [kv [-> Hin]].
  rewrite Forall_forall in Hall. by apply Hk, Hall.
Qed.

(** How often [row.update(m)] assigns key [k]. *)
Lemma assignments_to_writes kvs k :
  NoDup kvs.*1 →
  assignments_to k (writes kvs)
    = if decide (k ∈ kvs.*1) then 1%nat else 0%nat.
Proof.
  unfold assignments_to.
  induction kvs as [|[k' v] kvs IH]; intros Hnd; [done|].
  cbn in Hnd. apply NoDup_cons in Hnd as [Hk' Hnd].
  rewrite writes_cons. cbn [List.filter sets].
  specialize (IH Hnd). case_bool_decide as Heq.
  - subst k'. cbn [length]. rewrite IH.
    rewrite decide_False by done. rewrite decide_True; [done|]. cbn. by left.
  - rewrite IH. destruct (decide (k ∈ kvs.*1)) as [Hin|Hin].
    + rewrite decide_True; [done|]. cbn. by right.
    + rewrite decide_False; [done|]. cbn.
      intros [?|?]%elem_of_cons; congruence.
Qed.

Lemma assignments_to_update (m : gmap string string) k :
  is_Some (m !! k) → assignments_to k (writes (map_to_list m)) = 1%nat.
Proof.
  intros [v Hv]. rewrite assignments_to_writes by apply NoDup_fst_map_to_list.
  rewrite decide_True; [done|].
  apply list_elem_of_fmap. exists (k, v). split; [done|].
  by apply elem_of_map_to_list.
Qed.

(** *** Batch orchestrator *)

Lemma writes_not_remote kvs :
  Forall (λ ev, is_remote_call ev = false) (writes kvs).
Proof. unfold writes. apply Forall_fmap, Forall_true. by intros [k v]. Qed.

(** The cache-hit branch of [process_row]. *)
Lemma process_row_hit R st row t cached :
  cache_hit st (normalize_address_key row) = Some cached →
  process_row R st row t
    = (inr {| cache := cache st;
              enriched_rows := enriched_rows st
                ++ [ <["places_status" := "CACHED"]> (cached ∪ row) ] |},
       t ++ writes (map_to_list cached)
         ++ [EvSet "places_status" "CACHED"]).
Proof.
  intros Hhit. unfold process_row. rewrite Hhit.
  unfold update, mbind, M_bind. rewrite set_items_run.
  unfold set_item, mret, M_ret.
  by rewrite assign_map_to_list, <- app_assoc.
Qed.

Lemma lookup_extract_places_fields row k :
  extract_places_fields row !! k
    = if is_places_field k then row !! k else None.
Proof.
  unfold extract_places_fields.
  destruct (is_places_field k) eqn:Hk.
  - destruct (row !! k) as [v|] eqn:Hrow.
    + by apply map_lookup_filter_Some.
    + apply map_lookup_filter_None. left. done.
  - apply map_lookup_filter_None. right. intros v _ Hp.
    change (is_places_field k = true) in Hp. congruence.
Qed.

Lemma cache_ok_empty : cache_ok ∅.
Proof. intros key fields Hk. by rewrite lookup_empty in Hk. Qed.

Lemma process_row_cache_ok R st row t st' t' :
  cache_ok (cache st) → process_row R st row t = (inr st', t') →
  cache_ok (cache st').
Proof.
  intros Hok. destruct (cache_hit st (normalize_address_key row))
    as [cached|] eqn:Hhit.
  - rewrite (process_row_hit R st row t cached Hhit). by intros [= <- _].
  - unfold process_row. rewrite Hhit. unfold mbind, M_bind.
    destruct (enrich_row R row t) as [[e|enriched] t1] eqn:Hrun;
      [discriminate|].
    unfold mret, M_ret. intros [= <- _]. cbn [cache].
    destruct (Str.truthy (normalize_address_key row)); [|done].
    intros key fields. rewrite lookup_insert. case_decide; [|by apply Hok].
    intros [= <-]. split.
    + intros k [v Hv]. rewrite lookup_extract_places_fields in Hv.
      by destruct (is_places_field k).
    + apply enrich_row_inv in Hrun as (result & details & pre & -> & _ & _).
      destruct (enrich_assignments_status (build_query row) result details row)
        as (v & Hv & _).
      exists v. rewrite lookup_extract_places_fields.
      change (is_places_field "places_status") with true. exact Hv.
Qed.

Lemma main_loop_cache_ok R rows st t st' t' :
  cache_ok (cache st) → main_loop R st rows t = (inr st', t') →
  cache_ok (cache st').
Proof.
  revert st t. induction rows as [|row rows IH]; intros st t Hok.
  - by intros [= <- _].
  - cbn [main_loop]. unfold mbind, M_bind.
    destruct (process_row R st row t) as [[e|st1] t1] eqn:Hrow;
      [discriminate|].
    apply IH. by eapply process_row_cache_ok.
Qed.

(** The caches a run of [main] can reach. *)
Lemma reachable_cache_ok R rows t0 st t :
  main_loop R init rows t0 = (inr st, t) → cache_ok (cache st).
Proof. apply main_loop_cache_ok, cache_ok_empty. Qed.

Lemma cache_hit_lookup st key cached :
  cache_hit st key = Some cached → cache st !! key = Some cached.
Proof. unfold cache_hit. by destruct (Str.truthy key). Qed.

End EnrichFacts.

(** C5, as stated, fails. A response with status ["OK"] and an empty
    result list, which also is a search that returns no results, makes
    [enrich_row] raise [IndexError]: no status is set. And a record
    that arrives with a [places_*] field keeps it when the search finds
    nothing, so it carries more than [places_query] and
    [places_status]. *)
Lemma no_match_claim_fails :
  Enrich.enrich_row empty_ok_service sunny_days []
  = (inl Enrich.IndexError,
     [ Enrich.EvSearch "Sunny Days Daycare, Duluth, MN, 55802" ])
  ∧ Enrich.enrich_row no_service stale_row []
    = (inr (<["places_status" := "NO_MATCH"]>
              (<["places_query" := "Sunny Days Daycare, Duluth, MN, 55802"]>
                 stale_row)),
       first_trace)
  ∧ (<["places_status" := "NO_MATCH"]>
       (<["places_query" := "Sunny Days Daycare, Duluth, MN, 55802"]>
          stale_row)) !! "places_website" = Some "https://old.example"
  ∧ Enrich.is_places_field "places_website" = true.
Proof. split_and!; vm_refl. Qed.

(** C5 (amended): when the search phase reports a non-success status,
    sends no result list or sends an empty first result, [enrich_row]
    returns the record with [places_query] set to the query, the
    non-empty values among name, address, city, state and zip joined
    with [", "], and [places_status] set to ["NO_MATCH"]; the run makes
    the search call and no details call; every other field is as it
    was, so a record that arrived without [places_*] fields carries none
    but those two. *)
Theorem enrich_row_no_match (R : Enrich.remote) (row : gmap string string)
    (t : list Enrich.event) :
  let query :=
    Str.join ", "
      (List.filter Str.truthy
         [ get row "provider_name"; get row "address"; get row "city";
           get row "state"; get row "zip" ]) in
  Enrich.search_fails (Enrich.text_search R t query) →
  let row' := <["places_status" := "NO_MATCH"]> (<["places_query" := query]> row) in
  let evs := [ Enrich.EvSearch query; Enrich.EvSleep;
               Enrich.EvSet "places_query" query;
               Enrich.EvSet "places_status" "NO_MATCH" ] in
  Enrich.enrich_row R row t = (inr row', t ++ evs)
  ∧ Forall (λ ev, Enrich.is_details_call ev = false) evs
  ∧ row' !! "places_status" = Some "NO_MATCH"
  ∧ row' !! "places_query" = Some query
  ∧ (∀ k, k ≠ "places_query" → k ≠ "places_status" → row' !! k = row !! k)
  ∧ (Enrich.no_places_fields row →
     ∀ k, Enrich.is_places_field k = true →
          k ≠ "places_query" → k ≠ "places_status" → row' !! k = None).
Proof.
  intros query Hfail row' evs. split_and!.
  - apply EnrichFacts.places_text_search_fails in Hfail.
    exact (EnrichFacts.enrich_row_none R row t Hfail).
  - by repeat constructor.
  - apply lookup_insert_eq.
  - unfold row'. rewrite lookup_insert_ne by discriminate.
    apply lookup_insert_eq.
  - intros k Hq Hs. unfold row'. by rewrite !lookup_insert_ne.
  - intros Hfresh k Hk Hq Hs. unfold row'.
    rewrite !lookup_insert_ne by done. by apply Hfresh.
Qed.

Lemma enrich_row_no_match_witness :
  Enrich.enrich_row no_service sunny_days []
  = (inr (<["places_status" := "NO_MATCH"]>
            (<["places_query" := "Sunny Days Daycare, Duluth, MN, 55802"]>
               sunny_days)),
     [ Enrich.EvSearch "Sunny Days Daycare, Duluth, MN, 55802";
       Enrich.EvSleep;
       Enrich.EvSet "places_query" "Sunny Days Daycare, Duluth, MN, 55802";
       Enrich.EvSet "places_status" "NO_MATCH" ]).
Proof.
  destruct (enrich_row_no_match no_service sunny_days []) as [Hrun _].
  - eexists. split; [reflexivity|]. left. discriminate.
  - rewrite Hrun. vm_refl.
Defined.

(** C6, as stated, fails: a record that arrives with a details-phase
    field keeps it when the details phase yields nothing, since
    [enrich_row] assigns fields and removes none. *)
Lemma no_details_keeps_stale_field :
  ∃ row' t',
    Enrich.enrich_row search_only_service stale_row [] = (inr row', t')
    ∧ row' !! "places_status" = Some "NO_DETAILS"
    ∧ row' !! "places_website" = Some "https://old.example"
    ∧ Enrich.is_details_field "places_website" = true.
Proof.
  eexists _, _. split.
  - apply (EnrichFacts.enrich_row_search_only search_only_service stale_row []
             sunny_place).
    + eexists _, _. split_and!; reflexivity.
    + right. eexists. split; [reflexivity|]. left. discriminate.
  - split_and!; vm_refl.
Qed.

(** C6 (amended): when the search phase finds a result and the details
    phase is skipped for want of a place id, reports a non-success
    status or returns no result, [enrich_row] returns the record with
    [places_status] set to ["NO_DETAILS"] and the search-phase fields
    copied from the result; the details-phase fields are as they were on
    entry, so a record that arrived without [places_*] fields carries
    none of them. *)
Theorem enrich_row_no_details (R : Enrich.remote) (row : gmap string string)
    (t : list Enrich.event) (result : Enrich.place) :
  let query := Enrich.build_query row in
  let place_id := default "" (Enrich.r_place_id result) in
  Enrich.search_finds (Enrich.text_search R t query) result →
  place_id = ""
  ∨ Enrich.details_fails
      (Enrich.place_details R (t ++ [Enrich.EvSearch query; Enrich.EvSleep])
         place_id) →
  ∃ row' evs,
    Enrich.enrich_row R row t = (inr row', t ++ evs)
    ∧ row' !! "places_status" = Some "NO_DETAILS"
    ∧ row' !! "places_query" = Some query
    ∧ row' !! "places_place_id" = Some place_id
    ∧ row' !! "places_name" = Some (default "" (Enrich.r_name result))
    ∧ row' !! "places_formatted_address"
      = Some (default "" (Enrich.r_formatted_address result))
    ∧ row' !! "places_business_status"
      = Some (default "" (Enrich.r_business_status result))
    ∧ row' !! "places_rating" = Some (default "" (Enrich.r_rating result))
    ∧ row' !! "places_user_ratings_total"
      = Some (default "" (Enrich.r_user_ratings_total result))
    ∧ (∀ k, Enrich.is_details_field k = true → row' !! k = row !! k)
    ∧ (Enrich.no_places_fields row →
       ∀ k, Enrich.is_details_field k = true → row' !! k = None).
Proof.
  intros query place_id Hs Hd.
  pose proof (EnrichFacts.enrich_row_search_only R row t result Hs Hd) as Hrun.
  fold query place_id in Hrun.
  assert (Hframe : ∀ k, Enrich.is_details_field k = true →
            <["places_status" := "NO_DETAILS"]>
              (Enrich.assign (Enrich.search_fields query place_id result) row)
              !! k = row !! k).
  { intros k Hk.
    destruct (EnrichFacts.details_field_not_search k query place_id result Hk)
      as [Hne Hnotin].
    rewrite lookup_insert_ne by done.
    by apply EnrichFacts.lookup_assign_notin. }
  eexists _, _. split; [exact Hrun|].
  split; [apply lookup_insert_eq|].
  repeat (split; [
    rewrite lookup_insert_ne by discriminate;
    cbn [Enrich.assign Enrich.search_fields foldl fst snd];
    repeat (rewrite lookup_insert_ne by discriminate);
    apply lookup_insert_eq |]).
  split; [exact Hframe|].
  intros Hfresh k Hk. rewrite Hframe by done.
  apply Hfresh. by apply EnrichFacts.details_field_places.
Qed.

Lemma enrich_row_no_details_witness :
  ∃ row' evs,
    Enrich.enrich_row search_only_service sunny_days [] = (inr row', [] ++ evs)
    ∧ row' !! "places_status" = Some "NO_DETAILS"
    ∧ row' !! "places_query" = Some "Sunny Days Daycare, Duluth, MN, 55802"
    ∧ row' !! "places_place_id" = Some "ChIJ1"
    ∧ row' !! "places_name" = Some "Sunny Days Daycare"
    ∧ row' !! "places_website" = None.
Proof.
  destruct (enrich_row_no_details search_only_service sunny_days [] sunny_place)
    as (row' & evs & Hrun & Hstatus & Hquery & Hid & Hname & _ & _ & _ & _
        & Hframe & _).
  - eexists _, _. split_and!; reflexivity.
  - right. eexists. split; [reflexivity|]. left. discriminate.
  - exists row', evs.
    split_and!; [exact Hrun|exact Hstatus| |exact Hid|exact Hname|].
    + rewrite Hquery. vm_refl.
    + rewrite Hframe by reflexivity. vm_refl.
Defined.

(** C2: for a record whose address key is non-empty and present in the
    cache, the loop body makes no remote call, copies the cached fields
    onto the record, then sets [places_status] to ["CACHED"] (over the
    status the cached fields hold), and appends the record to the
    output. *)
Theorem process_row_cache_hit (R : Enrich.remote) (st : Enrich.state)
    (row : gmap string string) (t : list Enrich.event)
    (cached : gmap string string) :
  let cache_key := Enrich.normalize_address_key row in
  cache_key ≠ "" →
  Enrich.cache st !! cache_key = Some cached →
  let row' := <["places_status" := "CACHED"]> (cached ∪ row) in
  let evs := Enrich.writes (map_to_list cached)
               ++ [Enrich.EvSet "places_status" "CACHED"] in
  Enrich.process_row R st row t
    = (inr {| Enrich.cache := Enrich.cache st;
              Enrich.enriched_rows := Enrich.enriched_rows st ++ [row'] |},
       t ++ evs)
  ∧ Forall (λ ev, Enrich.is_remote_call ev = false) evs
  ∧ row' !! "places_status" = Some "CACHED"
  ∧ (∀ k v, k ≠ "places_status" → cached !! k = Some v → row' !! k = Some v).
Proof.
  intros cache_key Hkey Hcache row' evs. split_and!.
  - apply EnrichFacts.process_row_hit. unfold Enrich.cache_hit.
    fold cache_key. apply truthy_nonempty in Hkey. by rewrite Hkey.
  - apply Forall_app. split; [apply EnrichFacts.writes_not_remote|].
    by repeat constructor.
  - apply lookup_insert_eq.
  - intros k v Hk Hc. unfold row'. rewrite lookup_insert_ne by done.
    by apply lookup_union_Some_l.
Qed.

Lemma process_row_cache_hit_witness :
  Enrich.process_row no_service warm_state sunny_days []
  = (inr {| Enrich.cache := Enrich.cache warm_state;
            Enrich.enriched_rows := Enrich.enriched_rows warm_state
              ++ [ <["places_status" := "CACHED"]>
                     (no_match_entry ∪ sunny_days) ] |},
     [] ++ Enrich.writes (map_to_list no_match_entry)
        ++ [Enrich.EvSet "places_status" "CACHED"]).
Proof.
  refine (proj1 (process_row_cache_hit no_service warm_state sunny_days []
                   no_match_entry _ _)).
  - intros H. vm_compute in H. discriminate.
  - vm_refl.
Defined.

(** C10: on the cache-hit path of a run of [main], the loop body changes
    or adds only fields whose names start with [places_], because a
    cached entry holds only such fields; every other field, the ten core
    fields and [raw_row] among them, keeps its value. *)
Theorem cache_hit_frame (R : Enrich.remote) (rows : list (gmap string string))
    (t0 t : list Enrich.event) (st : Enrich.state)
    (row cached : gmap string string) :
  Enrich.main_loop R Enrich.init rows t0 = (inr st, t) →
  Enrich.cache_hit st (Enrich.normalize_address_key row) = Some cached →
  ∃ row' evs,
    Enrich.process_row R st row t
      = (inr {| Enrich.cache := Enrich.cache st;
                Enrich.enriched_rows := Enrich.enriched_rows st ++ [row'] |},
         t ++ evs)
    ∧ (∀ k, is_Some (cached !! k) → Enrich.is_places_field k = true)
    ∧ (∀ k, Enrich.is_places_field k = false → row' !! k = row !! k)
    ∧ (∀ k, k ∈ Scraper.out_fields ++ ["raw_row"] → row' !! k = row !! k).
Proof.
  intros Hrun Hhit.
  pose proof (EnrichFacts.reachable_cache_ok R rows t0 st t Hrun) as Hok.
  destruct (Hok _ _ (EnrichFacts.cache_hit_lookup _ _ _ Hhit)) as [Hkeys _].
  assert (Hframe : ∀ k, Enrich.is_places_field k = false →
            <["places_status" := "CACHED"]> (cached ∪ row) !! k = row !! k).
  { intros k Hk. rewrite lookup_insert_ne by (intros <-; discriminate).
    apply lookup_union_r. destruct (cached !! k) as [v|] eqn:Hc; [|done].
    rewrite Hkeys in Hk by eauto. discriminate. }
  eexists _, _. split; [by apply EnrichFacts.process_row_hit|].
  split_and!; [exact Hkeys|exact Hframe|].
  intros k Hk. apply Hframe. unfold Scraper.out_fields in Hk. cbn [app] in Hk.
  repeat (apply elem_of_cons in Hk as [->|Hk]; [reflexivity|]).
  by apply elem_of_nil in Hk.
Qed.

Lemma cache_hit_frame_witness :
  ∃ row' evs,
    Enrich.process_row no_service after_first sunny_days first_trace
      = (inr {| Enrich.cache := Enrich.cache after_first;
                Enrich.enriched_rows :=
                  Enrich.enriched_rows after_first ++ [row'] |},
         first_trace ++ evs)
    ∧ (∀ k, is_Some (no_match_entry !! k) → Enrich.is_places_field k = true)
    ∧ (∀ k, Enrich.is_places_field k = false → row' !! k = sunny_days !! k)
    ∧ (∀ k, k ∈ Scraper.out_fields ++ ["raw_row"] →
            row' !! k = sunny_days !! k).
Proof.
  apply (cache_hit_frame no_service [sunny_days] [] first_trace after_first
           sunny_days no_match_entry).
  - vm_refl.
  - vm_refl.
Defined.

(** C9, as stated, fails in its "exactly once" part: a record that hits
    the cache has [places_status] assigned twice, once by the copy of the
    cached fields and once by the assignment of ["CACHED"]. *)
Lemma cached_row_assigns_status_twice :
  ∃ st' evs,
    Enrich.main_loop no_service Enrich.init [sunny_days] []
      = (inr after_first, first_trace)
    ∧ Enrich.process_row no_service after_first sunny_days first_trace
      = (inr st', first_trace ++ evs)
    ∧ Enrich.assignments_to "places_status" evs = 2%nat.
Proof.
  eexists _, _. split_and!.
  - vm_refl.
  - apply (EnrichFacts.process_row_hit no_service after_first sunny_days
             first_trace no_match_entry).
    vm_refl.
  - vm_refl.
Qed.

(** C9 (amended): for every record that a run of [main] finishes
    processing, the final [places_status] is one of ["OK"], ["NO_MATCH"],
    ["NO_DETAILS"], ["CACHED"]; it is assigned exactly once when the
    record misses the cache, and twice when it hits it (by the copy of
    the cached fields, which always hold a status, and then by the
    assignment of ["CACHED"]). *)
Theorem places_status_assignments (R : Enrich.remote)
    (rows : list (gmap string string)) (t0 t t' : list Enrich.event)
    (st st' : Enrich.state) (row : gmap string string) :
  Enrich.main_loop R Enrich.init rows t0 = (inr st, t) →
  Enrich.process_row R st row t = (inr st', t') →
  ∃ row' evs v,
    t' = t ++ evs
    ∧ Enrich.enriched_rows st' = Enrich.enriched_rows st ++ [row']
    ∧ row' !! "places_status" = Some v
    ∧ v ∈ [ "OK"; "NO_MATCH"; "NO_DETAILS"; "CACHED" ]
    ∧ Enrich.assignments_to "places_status" evs
      = match Enrich.cache_hit st (Enrich.normalize_address_key row) with
        | Some _ => 2%nat
        | None => 1%nat
        end.
Proof.
  intros Hrun Hrow.
  pose proof (EnrichFacts.reachable_cache_ok R rows t0 st t Hrun) as Hok.
  destruct (Enrich.cache_hit st (Enrich.normalize_address_key row))
    as [cached|] eqn:Hhit.
  - rewrite (EnrichFacts.process_row_hit R st row t cached Hhit) in Hrow.
    injection Hrow as <- <-.
    destruct (Hok _ _ (EnrichFacts.cache_hit_lookup _ _ _ Hhit)) as [_ Hst].
    eexists _, _, "CACHED". split_and!; [reflexivity|reflexivity| | |].
    + apply lookup_insert_eq.
    + repeat constructor.
    + rewrite EnrichFacts.assignments_to_app.
      by rewrite (EnrichFacts.assignments_to_update cached _ Hst).
  - unfold Enrich.process_row in Hrow. rewrite Hhit in Hrow.
    unfold mbind, Enrich.M_bind in Hrow.
    destruct (Enrich.enrich_row R row t) as [[e|enriched] t1] eqn:Hen;
      [discriminate|].
    unfold mret, Enrich.M_ret in Hrow. injection Hrow as <- <-.
    apply EnrichFacts.enrich_row_inv in Hen
      as (result & details & pre & -> & -> & Hpre).
    destruct (EnrichFacts.enrich_assignments_status
                (Enrich.build_query row) result details row) as (v & Hv & Hin).
    eexists _, _, v. split_and!; [reflexivity|reflexivity|exact Hv| |].
    + repeat (apply elem_of_cons in Hin as [->|Hin]; [by repeat constructor|]).
      by apply elem_of_nil in Hin.
    + rewrite EnrichFacts.assignments_to_app.
      rewrite (EnrichFacts.assignments_to_none _ _ Hpre).
      by rewrite EnrichFacts.enrich_assignments_count.
Qed.

Lemma places_status_assignments_witness :
  ∃ row' evs v,
    first_trace ++ Enrich.writes (map_to_list no_match_entry)
      ++ [Enrich.EvSet "places_status" "CACHED"] = first_trace ++ evs
    ∧ after_first.(Enrich.enriched_rows)
        ++ [ <["places_status" := "CACHED"]> (no_match_entry ∪ sunny_days) ]
      = after_first.(Enrich.enriched_rows) ++ [row']
    ∧ row' !! "places_status" = Some v
    ∧ v ∈ [ "OK"; "NO_MATCH"; "NO_DETAILS"; "CACHED" ]
    ∧ Enrich.assignments_to "places_status" evs
      = match Enrich.cache_hit after_first
                (Enrich.normalize_address_key sunny_days) with
        | Some _ => 2%nat
        | None => 1%nat
        end.
Proof.
  apply (places_status_assignments no_service [sunny_days] [] first_trace _
           after_first
           {| Enrich.cache := Enrich.cache after_first;
              Enrich.enriched_rows := Enrich.enriched_rows after_first
                ++ [ <["places_status" := "CACHED"]>
                       (no_match_entry ∪ sunny_days) ] |}
           sunny_days).
  - vm_refl.
  - apply (EnrichFacts.process_row_hit no_service after_first sunny_days
             first_trace no_match_entry).
    vm_refl.
Defined.

(** ** Column order *)

Lemma prefix_split (p k : string) :
  String.prefix p k = true → ∃ rest, k = p +:+ rest.
Proof.
  revert k. induction p as [|a p IH]; intros k.
  - intros _. by exists k.
  - destruct k as [|b k]; [done|]. cbn [String.prefix].
    destruct (ascii_dec a b) as [->|]; [|done].
    intros [rest ->]%IH. by exists rest.
Qed.

Lemma fieldnames_Permutation (rows : list (gmap string string)) :
  Enrich.fieldnames rows ≡ₚ elements (⋃ (dom <$> rows) : gset string).
Proof. unfold Enrich.fieldnames. apply merge_sort_Permutation. Qed.

Lemma elem_of_fieldnames (rows : list (gmap string string)) (k : string) :
  k ∈ Enrich.fieldnames rows ↔ ∃ row, row ∈ rows ∧ is_Some (row !! k).
Proof.
  rewrite fieldnames_Permutation, elem_of_elements, elem_of_union_list.
  split.
  - intros (X & HX & Hk). apply list_elem_of_fmap in HX as (row & -> & Hrow).
    exists row. split; [done|]. by apply elem_of_dom.
  - intros (row & Hrow & Hk). exists (dom row). split.
    + apply list_elem_of_fmap. by exists row.
    + by apply elem_of_dom.
Qed.

(** C4, as stated, fails for the enriched CSV: [main] writes one sorted
    list of all keys, so the core columns do not come first in their
    fixed order and the [places_*] columns sit between [license_type] and
    [provider_name]. *)
Lemma enriched_header_is_alphabetical :
  Enrich.main no_service [full_row] []
  = (inr (full_header,
          [ [ "12 Lake Ave"; "Duluth"; "St. Louis"; ""; "1001";
              "Child Care Center";
              "Sunny Days Daycare, 12 Lake Ave, Duluth, MN, 55802";
              "NO_MATCH"; "Sunny Days Daycare"; "MN"; "Active"; "55802" ] ]),
     [ Enrich.EvSearch "Sunny Days Daycare, 12 Lake Ave, Duluth, MN, 55802";
       Enrich.EvSleep;
       Enrich.EvSet "places_query"
         "Sunny Days Daycare, 12 Lake Ave, Duluth, MN, 55802";
       Enrich.EvSet "places_status" "NO_MATCH" ])
  ∧ Enrich.spec_enriched_columns
      [ <["places_status" := "NO_MATCH"]>
          (<["places_query" :=
               "Sunny Days Daycare, 12 Lake Ave, Duluth, MN, 55802"]> full_row) ]
    = Scraper.out_fields ++ [ "places_query"; "places_status" ]
  ∧ full_header
    ≠ Scraper.out_fields ++ [ "places_query"; "places_status" ].
Proof. split_and!; [vm_refl|vm_refl|discriminate]. Qed.

(** C4 (amended): the normalized CSV has the ten core columns in their
    fixed order. The enriched CSV has every key of every output record as
    a column, once, in one ascending sort of all names; a [places_*]
    column therefore comes after [license_type] and before
    [provider_name]. *)
Theorem enriched_columns_sorted (rows : list (gmap string string)) :
  let header := (Enrich.write_enriched rows (Enrich.fieldnames rows)).1 in
  StronglySorted String.le header
  ∧ NoDup header
  ∧ (∀ k, k ∈ header ↔ ∃ row, row ∈ rows ∧ is_Some (row !! k))
  ∧ (∀ k, Enrich.is_places_field k = true →
          String.ltb "license_type" k = true
          ∧ String.ltb k "provider_name" = true)
  ∧ (∀ providers,
       (Scraper.write_normalized_csv providers).1 = Scraper.out_fields).
Proof.
  cbn [Enrich.write_enriched fst]. split_and!.
  - unfold Enrich.fieldnames. apply (StronglySorted_merge_sort String.le).
  - rewrite fieldnames_Permutation. apply NoDup_elements.
  - apply elem_of_fieldnames.
  - intros k [rest ->]%prefix_split. split; reflexivity.
  - reflexivity.
Qed.

(** ** HTML record extractor *)

(** C7 (the code departs from the claim): on a listing block in the
    documented layout [parse_providers_html] yields no record, because
    the listing pattern asks for a literal backslash after the title
    cell's [>]. On the block's detail cell, whose clean lines are the
    address, the "City, ST ZIP" line and the county line, the city
    pattern as written does not match the second line, although the same
    pattern with single backslashes does; so the record built from the
    block's groups has an empty city and ZIP and the default state. *)
Theorem listing_block_not_extracted (replace_charrefs : string → string) :
  Html.parse_providers_html replace_charrefs listing_html = []
  ∧ Html._clean_html_block replace_charrefs left_block
    = [ "12 Lake Ave"; "Duluth, MN 55802"; "St. Louis County" ]
  ∧ Re.re_match false false Html.city_state_zip_pattern "Duluth, MN 55802"
    = None
  ∧ Re.re_match false false single_backslash_city_pattern "Duluth, MN 55802"
    = Some [ (3%nat, "55802"); (2%nat, "MN"); (1%nat, "Duluth") ]
  ∧ (let record := Html.record_of_match replace_charrefs listing_groups in
     record !! "address" = Some (Scraper.VStr "12 Lake Ave")
     ∧ record !! "city" = Some (Scraper.VStr "")
     ∧ record !! "state" = Some (Scraper.VStr "MN")
     ∧ record !! "zip" = Some (Scraper.VStr "")
     ∧ record !! "county" = Some (Scraper.VStr "St. Louis")).
Proof. cbv zeta. split_and!; vm_refl. Qed.

(* ================================================================== *)
(** * Part III: further properties of the code *)
(* ================================================================== *)

(** ** Trimming *)

Module StrFacts.
Import KeySpec.

Lemma rev_app_distr (s1 s2 : string) :
  String.rev (s1 +:+ s2) = String.rev s2 +:+ String.rev s1.
Proof.
  induction s1 as [|c s1 IH].
  - change ("" +:+ s2) with s2. by rewrite string_app_nil_r.
  - change (String c s1 +:+ s2) with (String c (s1 +:+ s2)).
    by rewrite !string_rev_cons, IH, string_app_assoc.
Qed.

Lemma rev_involutive (s : string) : String.rev (String.rev s) = s.
Proof.
  induction s as [|c s IH]; [reflexivity|].
  by rewrite string_rev_cons, rev_app_distr, IH.
Qed.

Lemma has_word_app (a b : string) :
  has_word (a +:+ b) = has_word a || has_word b.
Proof.
  induction a as [|c a IH]; [reflexivity|].
  change (String c a +:+ b) with (String c (a +:+ b)).
  cbn [has_word]. by rewrite IH, orb_assoc.
Qed.

Lemma has_word_rev (s : string) : has_word (String.rev s) = has_word s.
Proof.
  induction s as [|c s IH]; [reflexivity|].
  rewrite string_rev_cons, has_word_app, IH. cbn [has_word].
  by rewrite orb_false_r, orb_comm.
Qed.

Lemma lstrip_length (s : string) :
  (String.length (Str.lstrip s) ≤ String.length s)%nat.
Proof.
  induction s as [|c s IH]; [done|]. cbn [Str.lstrip].
  destruct (Str.isspace c); cbn [String.length]; lia.
Qed.

Lemma lstrip_idem (s : string) : Str.lstrip (Str.lstrip s) = Str.lstrip s.
Proof.
  induction s as [|c s IH]; [reflexivity|].
  cbn [Str.lstrip]. destruct (Str.isspace c) eqn:Hc; [exact IH|].
  cbn [Str.lstrip]. by rewrite Hc.
Qed.

Lemma lstrip_app (a b : string) :
  Str.lstrip (a +:+ b)
    = if has_word a then Str.lstrip a +:+ b else Str.lstrip b.
Proof.
  induction a as [|c a IH]; [reflexivity|].
  change (String c a +:+ b) with (String c (a +:+ b)).
  cbn [Str.lstrip has_word]. destruct (Str.isspace c); [exact IH|reflexivity].
Qed.

(** [rstrip], read from the front. *)
Lemma rstrip_cons (c : ascii) (t : string) :
  Str.rstrip (String c t)
    = if has_word t then String c (Str.rstrip t)
      else if Str.isspace c then "" else String c "".
Proof.
  unfold Str.rstrip. rewrite string_rev_cons, lstrip_app, has_word_rev.
  destruct (has_word t).
  - by rewrite rev_app_distr.
  - cbn [Str.lstrip]. by destruct (Str.isspace c).
Qed.

Lemma rstrip_idem (s : string) : Str.rstrip (Str.rstrip s) = Str.rstrip s.
Proof. unfold Str.rstrip. by rewrite rev_involutive, lstrip_idem. Qed.

(** Trimming on the right leaves a text that starts with a word
    character untouched on the left. *)
Lemma lstrip_rstrip (t : string) :
  Str.lstrip t = t → Str.lstrip (Str.rstrip t) = Str.rstrip t.
Proof.
  destruct t as [|c t]; [reflexivity|].
  cbn [Str.lstrip]. destruct (Str.isspace c) eqn:Hc.
  - intros Heq. exfalso.
    assert (Hlen : ∀ u, (String.length (Str.lstrip u) ≤ String.length u)%nat).
    { induction u as [|d u IH]; [done|]. cbn [Str.lstrip].
      destruct (Str.isspace d); cbn [String.length]; lia. }
    pose proof (Hlen t) as Hl. rewrite Heq in Hl. cbn [String.length] in Hl. lia.
  - intros _. rewrite rstrip_cons. destruct (has_word t).
    + cbn [Str.lstrip]. by rewrite Hc.
    + rewrite Hc. cbn [Str.lstrip]. by rewrite Hc.
Qed.

Lemma lstrip_strip (s : string) : Str.lstrip (Str.strip s) = Str.strip s.
Proof. unfold Str.strip. apply lstrip_rstrip, lstrip_idem. Qed.

Lemma rstrip_strip (s : string) : Str.rstrip (Str.strip s) = Str.strip s.
Proof. unfold Str.strip. apply rstrip_idem. Qed.

Lemma strip_idem (s : string) : Str.strip (Str.strip s) = Str.strip s.
Proof.
  unfold Str.strip at 1. by rewrite lstrip_strip, rstrip_strip.
Qed.

End StrFacts.

(** ** Trimming, against its wording *)

Module TrimFacts.
Import Shape.

Lemma all_chars_app p (a b : string) :
  all_chars p (a +:+ b) = all_chars p a && all_chars p b.
Proof.
  induction a as [|c a IH]; [reflexivity|].
  change (String c a +:+ b) with (String c (a +:+ b)).
  cbn [all_chars]. by rewrite IH, andb_assoc.
Qed.

Lemma all_chars_rev p (s : string) :
  all_chars p (String.rev s) = all_chars p s.
Proof.
  induction s as [|c s IH]; [reflexivity|].
  rewrite string_rev_cons, all_chars_app, IH. cbn [all_chars].
  by rewrite andb_true_r, andb_comm.
Qed.

(** What [lstrip] and [rstrip] remove is whitespace. *)
Lemma lstrip_split (v : string) :
  ∃ l, v = l +:+ Str.lstrip v ∧ all_chars Str.isspace l = true.
Proof.
  induction v as [|c v (l & Hl & Hb)]; [by exists ""|].
  cbn [Str.lstrip]. destruct (Str.isspace c) eqn:Hc.
  - exists (String c l). split.
    + change (String c l +:+ Str.lstrip v) with (String c (l +:+ Str.lstrip v)).
      by rewrite <- Hl.
    + cbn [all_chars]. by rewrite Hc, Hb.
  - by exists "".
Qed.

Lemma rstrip_split (v : string) :
  ∃ r, v = Str.rstrip v +:+ r ∧ all_chars Str.isspace r = true.
Proof.
  destruct (lstrip_split (String.rev v)) as (l & Hl & Hb).
  exists (String.rev l). split; [|by rewrite all_chars_rev].
  unfold Str.rstrip. rewrite <- StrFacts.rev_app_distr, <- Hl.
  by rewrite StrFacts.rev_involutive.
Qed.

Lemma lstrip_fixed_clean (s : string) :
  Str.lstrip s = s → starts_clean s = true.
Proof.
  destruct s as [|c s]; [done|]. cbn [Str.lstrip starts_clean].
  destruct (Str.isspace c); [|done]. intros Hs.
  pose proof (StrFacts.lstrip_length s) as Hl. rewrite Hs in Hl.
  cbn [String.length] in Hl. lia.
Qed.

(** [strip] computes the trimmed text. *)
Lemma strip_trimmed_of (v : string) : trimmed_of v (Str.strip v).
Proof.
  destruct (lstrip_split v) as (l & Hl & Hbl).
  destruct (rstrip_split (Str.lstrip v)) as (r & Hr & Hbr).
  exists l, r. split_and!; [|done|done| |].
  - unfold Str.strip. by rewrite <- Hr.
  - apply lstrip_fixed_clean, StrFacts.lstrip_strip.
  - apply lstrip_fixed_clean.
    rewrite <- (StrFacts.rev_involutive
                  (Str.lstrip (String.rev (Str.strip v)))).
    change (String.rev (Str.lstrip (String.rev (Str.strip v))))
      with (Str.rstrip (Str.strip v)).
    by rewrite StrFacts.rstrip_strip.
Qed.

End TrimFacts.

(** C8: when two source columns that the table maps to the same field are
    both present and non-empty, the field holds the trimmed value of the
    one whose entry comes later in the table; and whenever a field is
    supplied at all, it holds the trimmed value of a supplying column.
    The trimmed value of [v] is [v] without the whitespace around it. *)
Theorem normalize_row_last_wins (row : gmap string string)
    (i j : nat) (src1 src2 f v1 v2 : string) :
  Scraper.column_map !! i = Some (src1, f) →
  Scraper.column_map !! j = Some (src2, f) →
  (i < j)%nat →
  row !! src1 = Some v1 → v1 ≠ "" →
  row !! src2 = Some v2 → v2 ≠ "" →
  Scraper.normalize_row row !! f = Some (Scraper.VStr (Str.strip v2))
  ∧ Shape.trimmed_of v2 (Str.strip v2)
  ∧ (∀ g, Scraper.supplied row g →
          ∃ src_col v, (src_col, g) ∈ Scraper.column_map
                       ∧ row !! src_col = Some v ∧ v ≠ ""
                       ∧ Scraper.normalize_row row !! g
                         = Some (Scraper.VStr (Str.strip v))
                       ∧ Shape.trimmed_of v (Str.strip v)).
Proof.
  intros Hi Hj Hlt Hrow1 Hv1 Hrow2 Hv2. split_and!.
  - rewrite ScraperFacts.lookup_normalize_row.
    rewrite (ScraperFacts.mapped_value_last _ row j src2 f v2);
      [reflexivity|assumption..|].
    exact (ScraperFacts.column_map_later_synonym i j src1 src2 f Hi Hj Hlt).
  - apply TrimFacts.strip_trimmed_of.
  - intros g (s & v & Hin & Hrow & Hv).
    destruct (ScraperFacts.mapped_value_is_Some _ _ _ _ _ Hin Hrow Hv)
      as [w Hw].
    rewrite ScraperFacts.lookup_normalize_row, Hw.
    apply ScraperFacts.mapped_value_Some in Hw as (s' & v' & ? & ? & ? & ->).
    exists s', v'. split_and!; try done. apply TrimFacts.strip_trimmed_of.
Qed.

Lemma normalize_row_last_wins_witness :
  Scraper.normalize_row two_names_csv !! "provider_name"
    = Some (Scraper.VStr "New Name")
  ∧ Shape.trimmed_of " New Name " "New Name".
Proof.
  destruct (normalize_row_last_wins two_names_csv
              2 3 "License Holder Name" "Provider Name" "provider_name"
              " Old Name " " New Name ") as (Hvalue & Htrim & _).
  - reflexivity.
  - reflexivity.
  - lia.
  - vm_compute. reflexivity.
  - discriminate.
  - vm_compute. reflexivity.
  - discriminate.
  - split; [exact Hvalue|exact Htrim].
Defined.


(** X1: every string the column mapper stores in a record, copied or
    default, has no leading and no trailing whitespace. *)
Theorem normalize_row_values_trimmed (row : gmap string string)
    (f s : string) :
  Scraper.normalize_row row !! f = Some (Scraper.VStr s) →
  Str.lstrip s = s ∧ Str.rstrip s = s.
Proof.
  rewrite ScraperFacts.lookup_normalize_row.
  destruct (Scraper.mapped_value Scraper.column_map row f) as [w|] eqn:Hm.
  - intros [= <-].
    apply ScraperFacts.mapped_value_Some in Hm as (src & v & _ & _ & _ & ->).
    split; [apply StrFacts.lstrip_strip|apply StrFacts.rstrip_strip].
  - destruct (decide (f = "raw_row")); [discriminate|].
    unfold Scraper.default_of.
    repeat (match goal with
            | |- context [decide (f = ?k)] =>
                destruct (decide (f = k));
                [intros [= <-]; split; reflexivity|]
            end).
    discriminate.
Qed.

Lemma normalize_row_values_trimmed_witness :
  Str.lstrip (Str.strip " New Name ") = Str.strip " New Name "
  ∧ Str.rstrip (Str.strip " New Name ") = Str.strip " New Name ".
Proof.
  apply (normalize_row_values_trimmed two_names_csv "provider_name").
  vm_refl.
Defined.

(** X2: the lines [_clean_html_block] returns are non-empty and carry no
    leading or trailing whitespace. *)
Theorem clean_html_block_lines (replace_charrefs : string → string)
    (text line : string) :
  line ∈ Html._clean_html_block replace_charrefs text →
  line ≠ "" ∧ Str.strip line = line.
Proof.
  unfold Html._clean_html_block. rewrite list_elem_of_In, List.filter_In.
  rewrite <- list_elem_of_In. intros [Hin Hne].
  apply list_elem_of_fmap in Hin as (raw & -> & _). split.
  - by apply truthy_nonempty.
  - apply StrFacts.strip_idem.
Qed.

Lemma clean_html_block_lines_witness :
  "Duluth, MN 55802" ≠ "" ∧ Str.strip "Duluth, MN 55802" = "Duluth, MN 55802".
Proof.
  apply (clean_html_block_lines (λ s, s) left_block).
  assert (H : Html._clean_html_block (λ s, s) left_block
              = [ "12 Lake Ave"; "Duluth, MN 55802"; "St. Louis County" ])
    by vm_refl.
  rewrite H. apply list_elem_of_further, list_elem_of_here.
Defined.

(** ** Address key and query *)

Module KeyShape.
Import KeySpec Shape.

Lemma collapse_nonempty (b : bool) (s : string) :
  has_word s = true → collapse b s ≠ "".
Proof.
  revert b. induction s as [|c s IH]; intros b; [discriminate|].
  cbn [has_word collapse]. destruct (Str.isspace c); cbn [negb orb].
  - intros Hs. rewrite Hs, andb_true_r. destruct b; [discriminate|by apply IH].
  - discriminate.
Qed.

Lemma tidy_weaken (s : string) : tidy false s = true → tidy true s = true.
Proof.
  destruct s as [|c s]; [done|]. cbn [tidy].
  destruct (Str.isspace c); [|done]. by rewrite andb_false_r.
Qed.

Lemma collapse_tidy (b : bool) (s : string) : tidy b (collapse b s) = true.
Proof.
  revert b. induction s as [|c s IH]; intros b; [reflexivity|].
  cbn [collapse]. destruct (Str.isspace c) eqn:Hc.
  - destruct b; cbn [andb].
    + destruct (has_word s) eqn:Hs.
      * cbn [tidy]. change (Str.isspace " ") with true.
        change (Ascii.eqb " " " ") with true. cbn [andb].
        rewrite (IH false), andb_true_r.
        apply truthy_nonempty, collapse_nonempty, Hs.
      * apply tidy_weaken, IH.
    + apply IH.
  - cbn [tidy]. rewrite Hc. apply IH.
Qed.

(** Collapsing turns every whitespace character that stays into a
    space, and leaves the others. *)
Lemma collapse_chars (b : bool) (s : string) :
  all_chars Enrich.alnum_or_space s = true →
  all_chars key_char (collapse b s) = true.
Proof.
  revert b. induction s as [|c s IH]; intros b; [done|].
  cbn [all_chars collapse]. intros [Hc Hs]%andb_true_iff.
  destruct (Str.isspace c) eqn:Hsp.
  - destruct (b && has_word s); [|by apply IH].
    cbn [all_chars]. rewrite IH by done. reflexivity.
  - cbn [all_chars]. rewrite IH by done. rewrite andb_true_r.
    unfold key_char. unfold Enrich.alnum_or_space in Hc.
    rewrite Hsp, orb_false_r in Hc. rewrite Hc. apply orb_true_r.
Qed.

Lemma keep_chars (p : ascii → bool) (s : string) :
  all_chars p (Str.keep p s) = true.
Proof.
  induction s as [|c s IH]; [reflexivity|].
  cbn [Str.keep]. destruct (p c) eqn:Hc; [|exact IH].
  cbn [all_chars]. by rewrite Hc, IH.
Qed.

(** The key is the normal form of one text: the address composite, or
    the provider name. *)
Lemma key_normal_form (row : gmap string string) :
  ∃ s, Enrich.normalize_address_key row
       = collapse false (Str.keep Enrich.alnum_or_space (Str.lower s)).
Proof.
  unfold Enrich.normalize_address_key, Enrich.address_composite.
  rewrite !KeyFacts.join_split.
  destruct (negb (Str.truthy _)); eauto.
Qed.

Lemma lower_app (a b : string) :
  Str.lower (a +:+ b) = Str.lower a +:+ Str.lower b.
Proof.
  induction a as [|c a IH]; [reflexivity|].
  change (String c a +:+ b) with (String c (a +:+ b)).
  cbn [Str.lower]. rewrite IH. reflexivity.
Qed.

Lemma lower_address_parts (a b c d : string) :
  Str.lower (Str.join " " [a; b; c; d])
    = Str.lower a +:+ " " +:+ Str.lower b +:+ " " +:+ Str.lower c
      +:+ " " +:+ Str.lower d.
Proof.
  change (Str.join " " [a; b; c; d])
    with (a +:+ " " +:+ b +:+ " " +:+ c +:+ " " +:+ d).
  by rewrite !lower_app.
Qed.

Lemma join_nonempty (sep p : string) (rest : list string) :
  p ≠ "" → Str.join sep (p :: rest) ≠ "".
Proof.
  intros Hp. rewrite join_cons. destruct p as [|c p]; [done|].
  destruct rest; [done|].
  change (String c p +:+ sep +:+ Str.join sep (s :: rest))
    with (String c (p +:+ sep +:+ Str.join sep (s :: rest))).
  discriminate.
Qed.

Lemma get_assign_frame kvs (row : gmap string string) (k : string) :
  Forall (λ kv, Enrich.is_places_field kv.1 = true) kvs →
  Enrich.is_places_field k = false →
  get (Enrich.assign kvs row) k = get row k.
Proof.
  intros Hall Hk. unfold get.
  rewrite (EnrichFacts.lookup_assign_frame
             (λ k, Enrich.is_places_field k = true)); [done|done|].
  congruence.
Qed.

End KeyShape.

(** X3: an address key holds only spaces and alphanumeric characters;
    its spaces are single, and none is first or last. *)
Theorem address_key_shape (row : gmap string string) :
  Shape.all_chars Shape.key_char (Enrich.normalize_address_key row) = true
  ∧ Shape.tidy false (Enrich.normalize_address_key row) = true.
Proof.
  destruct (KeyShape.key_normal_form row) as [s ->]. split.
  - apply KeyShape.collapse_chars, KeyShape.keep_chars.
  - apply KeyShape.collapse_tidy.
Qed.

(** X4: the address key ignores letter case: two records whose address,
    city, state, zip and provider name agree up to case get the same
    key. *)
Theorem address_key_ignores_case (r1 r2 : gmap string string) :
  Str.lower (get r1 "address") = Str.lower (get r2 "address") →
  Str.lower (get r1 "city") = Str.lower (get r2 "city") →
  Str.lower (get r1 "state") = Str.lower (get r2 "state") →
  Str.lower (get r1 "zip") = Str.lower (get r2 "zip") →
  Str.lower (get r1 "provider_name") = Str.lower (get r2 "provider_name") →
  Enrich.normalize_address_key r1 = Enrich.normalize_address_key r2.
Proof.
  intros Ha Hc Hs Hz Hn.
  unfold Enrich.normalize_address_key, Enrich.address_composite.
  by rewrite !KeyShape.lower_address_parts, Ha, Hc, Hs, Hz, Hn.
Qed.

Lemma address_key_ignores_case_witness :
  Enrich.normalize_address_key sunny_days
  = Enrich.normalize_address_key sunny_days_upper.
Proof.
  apply (address_key_ignores_case sunny_days sunny_days_upper); vm_refl.
Defined.

(** X5: a record that [enrich_row] returns has the address key and the
    query of the record it was given, so enriching it again asks the
    same question and caches under the same key. *)
Theorem enrich_row_keeps_key (R : Enrich.remote) (row row' : gmap string string)
    (t t' : list Enrich.event) :
  Enrich.enrich_row R row t = (inr row', t') →
  Enrich.normalize_address_key row' = Enrich.normalize_address_key row
  ∧ Enrich.build_query row' = Enrich.build_query row.
Proof.
  intros Hrun.
  apply EnrichFacts.enrich_row_inv in Hrun as (result & details & pre & -> & _).
  pose proof (EnrichFacts.enrich_assignments_places
                (Enrich.build_query row) result details) as Hall.
  unfold Enrich.normalize_address_key, Enrich.address_composite,
    Enrich.build_query.
  by rewrite !(KeyShape.get_assign_frame _ row _ Hall).
Qed.

Lemma enrich_row_keeps_key_witness :
  Enrich.normalize_address_key
    (<["places_status" := "NO_MATCH"]>
       (<["places_query" := "Sunny Days Daycare, Duluth, MN, 55802"]>
          sunny_days))
  = Enrich.normalize_address_key sunny_days
  ∧ Enrich.build_query
      (<["places_status" := "NO_MATCH"]>
         (<["places_query" := "Sunny Days Daycare, Duluth, MN, 55802"]>
            sunny_days))
    = Enrich.build_query sunny_days.
Proof.
  apply (enrich_row_keeps_key no_service sunny_days _ [] first_trace).
  vm_refl.
Defined.

(** X6: the query is empty exactly when the provider name, address,
    city, state and zip of the record are all empty or missing. *)
Theorem build_query_empty (row : gmap string string) :
  Enrich.build_query row = ""
  ↔ get row "provider_name" = "" ∧ get row "address" = ""
    ∧ get row "city" = "" ∧ get row "state" = "" ∧ get row "zip" = "".
Proof.
  unfold Enrich.build_query. split.
  - intros Hq.
    destruct (get row "provider_name") as [|c1 n];
      [|by apply KeyShape.join_nonempty in Hq].
    destruct (get row "address") as [|c2 a];
      [|by apply KeyShape.join_nonempty in Hq].
    destruct (get row "city") as [|c3 c];
      [|by apply KeyShape.join_nonempty in Hq].
    destruct (get row "state") as [|c4 s];
      [|by apply KeyShape.join_nonempty in Hq].
    destruct (get row "zip") as [|c5 z];
      [|by apply KeyShape.join_nonempty in Hq].
    done.
  - by intros (-> & -> & -> & -> & ->).
Qed.

(** ** Outcomes of [enrich_row] *)

Module RunFacts.
Import Enrich Runs.

Lemma places_details_finds R place_id t d :
  details_finds (place_details R t place_id) d →
  places_details R place_id t = (inr (Some d), t ++ [EvDetails place_id]).
Proof.
  intros (data & Hresp & Hst & Hres).
  unfold places_details, mbind, M_bind, get_details. rewrite Hresp.
  rewrite bool_decide_eq_true_2 by done. by rewrite Hres.
Qed.

(** [enrich_row] when both phases succeed. *)
Lemma enrich_row_ok R row t result d :
  search_finds (text_search R t (build_query row)) result →
  default "" (r_place_id result) ≠ "" →
  details_finds
    (place_details R (t ++ [EvSearch (build_query row); EvSleep])
       (default "" (r_place_id result))) d →
  enrich_row R row t
    = (inr (assign (details_fields d)
              (assign (search_fields (build_query row)
                         (default "" (r_place_id result)) result) row)),
       t ++ [EvSearch (build_query row); EvSleep;
             EvDetails (default "" (r_place_id result)); EvSleep]
         ++ writes (search_fields (build_query row)
                      (default "" (r_place_id result)) result)
         ++ writes (details_fields d)).
Proof.
  intros Hs Hid Hd. unfold enrich_row, mbind, M_bind.
  rewrite (EnrichFacts.places_text_search_finds R _ t result Hs).
  unfold sleep, emit. apply truthy_nonempty in Hid. rewrite Hid.
  rewrite <- app_assoc. cbn [app].
  rewrite (places_details_finds R _ _ d Hd).
  rewrite !EnrichFacts.set_items_run. by rewrite <- !app_assoc.
Qed.

Lemma details_fields_NoDup d : NoDup (details_fields d).*1.
Proof. apply (bool_decide_unpack _). vm_compute. reflexivity. Qed.

Lemma lookup_details_fields d row k v :
  (k, v) ∈ details_fields d → assign (details_fields d) row !! k = Some v.
Proof. apply EnrichFacts.lookup_assign_Some, details_fields_NoDup. Qed.

(** [enrich_row] when the details request fails at HTTP level. *)
Lemma enrich_row_details_down R row t result :
  search_finds (text_search R t (build_query row)) result →
  default "" (r_place_id result) ≠ "" →
  place_details R (t ++ [EvSearch (build_query row); EvSleep])
    (default "" (r_place_id result)) = HttpError →
  enrich_row R row t
    = (inl HTTPError,
       t ++ [EvSearch (build_query row); EvSleep;
             EvDetails (default "" (r_place_id result))]).
Proof.
  intros Hs Hid Hd. unfold enrich_row, mbind, M_bind.
  rewrite (EnrichFacts.places_text_search_finds R _ t result Hs).
  unfold sleep, emit. apply truthy_nonempty in Hid. rewrite Hid.
  rewrite <- app_assoc. cbn [app].
  unfold places_details, mbind, M_bind, get_details. rewrite Hd.
  unfold raise. by rewrite <- app_assoc.
Qed.

Lemma lookup_assign_is_Some kvs (row : gmap string string) k :
  is_Some (row !! k) → is_Some (assign kvs row !! k).
Proof.
  revert row. induction kvs as [|[k' v] kvs IH]; intros row Hk; [done|].
  rewrite EnrichFacts.assign_cons. apply IH.
  rewrite lookup_insert. by case_decide.
Qed.

Lemma enrich_assignments_query query result details row :
  assign (enrich_assignments query result details) row !! "places_query"
    = Some query.
Proof.
  destruct result as [r|].
  - cbn [enrich_assignments]. rewrite EnrichFacts.assign_app.
    rewrite EnrichFacts.lookup_assign_notin.
    + cbn [assign search_fields foldl fst snd].
      repeat (rewrite lookup_insert_ne by discriminate).
      apply lookup_insert_eq.
    + destruct details; cbn;
        repeat (apply not_elem_of_cons; split; [discriminate|]);
        apply not_elem_of_nil.
  - cbn [enrich_assignments assign no_match_fields foldl fst snd].
    rewrite lookup_insert_ne by discriminate. apply lookup_insert_eq.
Qed.

End RunFacts.

(** X7: when the search phase finds a result with a place id and the
    details phase answers with a result, [enrich_row] makes the two calls
    with a sleep after each, sets [places_status] to ["OK"], and copies
    every details field, absent ones as the empty string. *)
Theorem enrich_row_details_copied (R : Enrich.remote)
    (row : gmap string string) (t : list Enrich.event)
    (result : Enrich.place) (d : Enrich.details) :
  let query := Enrich.build_query row in
  let place_id := default "" (Enrich.r_place_id result) in
  Enrich.search_finds (Enrich.text_search R t query) result →
  place_id ≠ "" →
  Runs.details_finds
    (Enrich.place_details R (t ++ [Enrich.EvSearch query; Enrich.EvSleep])
       place_id) d →
  ∃ row',
    Enrich.enrich_row R row t
      = (inr row',
         t ++ [ Enrich.EvSearch query; Enrich.EvSleep;
                Enrich.EvDetails place_id; Enrich.EvSleep ]
           ++ Enrich.writes (Enrich.search_fields query place_id result)
           ++ Enrich.writes (Enrich.details_fields d))
    ∧ row' !! "places_status" = Some "OK"
    ∧ row' !! "places_website" = Some (default "" (Enrich.d_website d))
    ∧ row' !! "places_phone"
      = Some (default "" (Enrich.d_formatted_phone_number d))
    ∧ row' !! "places_intl_phone"
      = Some (default "" (Enrich.d_international_phone_number d))
    ∧ row' !! "places_types"
      = Some (Str.join "," (default [] (Enrich.d_types d)))
    ∧ row' !! "places_url" = Some (default "" (Enrich.d_url d))
    ∧ row' !! "places_details_name" = Some (default "" (Enrich.d_name d))
    ∧ row' !! "places_details_address"
      = Some (default "" (Enrich.d_formatted_address d))
    ∧ row' !! "places_details_status"
      = Some (default "" (Enrich.d_business_status d))
    ∧ row' !! "places_details_rating" = Some (default "" (Enrich.d_rating d))
    ∧ row' !! "places_details_user_ratings_total"
      = Some (default "" (Enrich.d_user_ratings_total d))
    ∧ (Enrich.d_geometry d = None →
       row' !! "places_lat" = Some "" ∧ row' !! "places_lng" = Some "").
Proof.
  intros query place_id Hs Hid Hd.
  eexists. split; [exact (RunFacts.enrich_row_ok R row t result d Hs Hid Hd)|].
  split_and!;
    try (apply RunFacts.lookup_details_fields; unfold Enrich.details_fields;
         repeat first [apply list_elem_of_here | apply list_elem_of_further]).
  intros Hg. split; apply RunFacts.lookup_details_fields;
    unfold Enrich.details_fields; rewrite Hg;
    repeat first [apply list_elem_of_here | apply list_elem_of_further].
Qed.

Lemma enrich_row_details_copied_witness :
  ∃ row',
    (Enrich.enrich_row full_service sunny_days []).1 = inr row'
    ∧ row' !! "places_status" = Some "OK"
    ∧ row' !! "places_website" = Some "https://sunnydays.example".
Proof.
  destruct (enrich_row_details_copied full_service sunny_days []
              sunny_place sunny_details)
    as (row' & Hrun & Hst & Hweb & _).
  - eexists _, _. split_and!; reflexivity.
  - discriminate.
  - eexists. split_and!; reflexivity.
  - exists row'. rewrite Hrun. split_and!; [reflexivity|exact Hst|exact Hweb].
Defined.

(** X8: a request that fails at HTTP level makes [enrich_row] raise
    [HTTPError] at that request, with nothing assigned to the record:
    the text search before any sleep, the details request after the text
    search, one sleep and no assignment. *)
Theorem enrich_row_http_error (R : Enrich.remote) (row : gmap string string)
    (t : list Enrich.event) :
  let query := Enrich.build_query row in
  (Enrich.text_search R t query = Enrich.HttpError →
   Enrich.enrich_row R row t
   = (inl Enrich.HTTPError, t ++ [ Enrich.EvSearch query ]))
  ∧ (∀ result,
       let place_id := default "" (Enrich.r_place_id result) in
       Enrich.search_finds (Enrich.text_search R t query) result →
       place_id ≠ "" →
       Enrich.place_details R (t ++ [ Enrich.EvSearch query; Enrich.EvSleep ])
         place_id = Enrich.HttpError →
       Enrich.enrich_row R row t
       = (inl Enrich.HTTPError,
          t ++ [ Enrich.EvSearch query; Enrich.EvSleep;
                 Enrich.EvDetails place_id ])).
Proof.
  intros query. split.
  - intros Hresp.
    unfold Enrich.enrich_row, mbind, Enrich.M_bind.
    unfold Enrich.places_text_search, mbind, Enrich.M_bind, Enrich.get_search.
    fold query. by rewrite Hresp.
  - intros result place_id Hs Hid Hd.
    by apply RunFacts.enrich_row_details_down.
Qed.

Lemma enrich_row_http_error_witness :
  Enrich.enrich_row down_service sunny_days []
  = (inl Enrich.HTTPError,
     [ Enrich.EvSearch "Sunny Days Daycare, Duluth, MN, 55802" ])
  ∧ Enrich.enrich_row details_down_service sunny_days []
    = (inl Enrich.HTTPError,
       [ Enrich.EvSearch "Sunny Days Daycare, Duluth, MN, 55802";
         Enrich.EvSleep; Enrich.EvDetails "ChIJ1" ]).
Proof.
  split.
  - rewrite (proj1 (enrich_row_http_error down_service sunny_days [])
               eq_refl).
    vm_refl.
  - rewrite (proj2 (enrich_row_http_error details_down_service sunny_days [])
               sunny_place).
    + vm_refl.
    + eexists _, _. split_and!; reflexivity.
    + discriminate.
    + reflexivity.
Defined.

(** X9: a search response with status ["OK"] and an empty result list
    makes [enrich_row] raise [IndexError] right after the request,
    with no sleep and nothing assigned. *)
Theorem enrich_row_empty_results (R : Enrich.remote)
    (row : gmap string string) (t : list Enrich.event)
    (data : Enrich.search_data) :
  Enrich.text_search R t (Enrich.build_query row) = Enrich.HttpOk data →
  Enrich.s_status data = Some "OK" →
  Enrich.s_results data = Some [] →
  Enrich.enrich_row R row t
    = (inl Enrich.IndexError, t ++ [ Enrich.EvSearch (Enrich.build_query row) ]).
Proof.
  intros Hresp Hst Hres.
  unfold Enrich.enrich_row, mbind, Enrich.M_bind.
  unfold Enrich.places_text_search, mbind, Enrich.M_bind, Enrich.get_search.
  rewrite Hresp, bool_decide_eq_true_2 by done. by rewrite Hres.
Qed.

Lemma enrich_row_empty_results_witness :
  Enrich.enrich_row empty_ok_service sunny_days []
  = (inl Enrich.IndexError,
     [] ++ [ Enrich.EvSearch (Enrich.build_query sunny_days) ]).
Proof.
  apply (enrich_row_empty_results empty_ok_service sunny_days []
           {| Enrich.s_status := Some "OK"; Enrich.s_results := Some [] |});
    reflexivity.
Defined.

(** X10: a record returned by [enrich_row] keeps every field it had:
    no key is removed, every field whose name does not start with
    [places_] has its old value, [places_query] is the query and
    [places_status] is set. *)
Theorem enrich_row_adds_only (R : Enrich.remote)
    (row row' : gmap string string) (t t' : list Enrich.event) :
  Enrich.enrich_row R row t = (inr row', t') →
  (∀ k, is_Some (row !! k) → is_Some (row' !! k))
  ∧ Runs.same_but_places row row'
  ∧ row' !! "places_query" = Some (Enrich.build_query row)
  ∧ is_Some (row' !! "places_status").
Proof.
  intros Hrun.
  apply EnrichFacts.enrich_row_inv in Hrun as (result & details & pre & -> & _).
  split_and!.
  - intros k. apply RunFacts.lookup_assign_is_Some.
  - intros k Hk.
    apply (EnrichFacts.lookup_assign_frame
             (λ k, Enrich.is_places_field k = true)).
    + apply EnrichFacts.enrich_assignments_places.
    + congruence.
  - apply RunFacts.enrich_assignments_query.
  - destruct (EnrichFacts.enrich_assignments_status
                (Enrich.build_query row) result details row) as (v & Hv & _).
    by exists v.
Qed.

Lemma enrich_row_adds_only_witness :
  Runs.same_but_places sunny_days
    (<["places_status" := "NO_MATCH"]>
       (<["places_query" := "Sunny Days Daycare, Duluth, MN, 55802"]>
          sunny_days)).
Proof.
  refine (proj1 (proj2 (enrich_row_adds_only no_service sunny_days _ []
                          first_trace _))).
  vm_refl.
Defined.

(** ** The loop of [main] *)

Module LoopFacts.
Import Enrich Runs.

(** The remote calls and sleeps of a run of [enrich_row] that returns. *)
Lemma enrich_row_calls R row t row' t' :
  enrich_row R row t = (inr row', t') →
  ∃ result details pre,
    row' = assign (enrich_assignments (build_query row) result details) row
    ∧ t' = t ++ pre
             ++ writes (enrich_assignments (build_query row) result details)
    ∧ (pre = [EvSearch (build_query row); EvSleep]
       ∨ pre = [EvSearch (build_query row); EvSleep; EvSleep]
       ∨ ∃ place_id, pre = [EvSearch (build_query row); EvSleep;
                            EvDetails place_id; EvSleep]).
Proof.
  unfold enrich_row, mbind, M_bind.
  pose proof (EnrichFacts.places_text_search_trace R (build_query row) t) as Ht.
  destruct (places_text_search R (build_query row) t) as [[e|result] t1];
    [discriminate|].
  cbn in Ht. subst t1. unfold sleep, emit.
  destruct result as [r|].
  - destruct (Str.truthy (default "" (r_place_id r))).
    + pose proof (EnrichFacts.places_details_trace R (default "" (r_place_id r))
                    ((t ++ [EvSearch (build_query row)]) ++ [EvSleep])) as Hd.
      destruct (places_details R _ _) as [[e|details] t2]; [discriminate|].
      cbn in Hd. subst t2. rewrite EnrichFacts.set_items_run.
      destruct details as [d|].
      * rewrite EnrichFacts.set_items_run.
        intros [-> ->]%EnrichFacts.returned_inj.
        exists (Some r), (Some d),
          [EvSearch (build_query row); EvSleep;
           EvDetails (default "" (r_place_id r)); EvSleep].
        cbn [enrich_assignments].
        rewrite EnrichFacts.assign_app, EnrichFacts.writes_app.
        split_and!; [done| |right; right; by eexists].
        by rewrite <- !app_assoc.
      * unfold set_item. intros [-> ->]%EnrichFacts.returned_inj.
        exists (Some r), None,
          [EvSearch (build_query row); EvSleep;
           EvDetails (default "" (r_place_id r)); EvSleep].
        cbn [enrich_assignments].
        rewrite EnrichFacts.assign_app, EnrichFacts.writes_app.
        split_and!; [done| |right; right; by eexists].
        by rewrite <- !app_assoc.
    + unfold mret, M_ret. rewrite EnrichFacts.set_items_run. unfold set_item.
      intros [-> ->]%EnrichFacts.returned_inj.
      exists (Some r), None, [EvSearch (build_query row); EvSleep; EvSleep].
      cbn [enrich_assignments].
      rewrite EnrichFacts.assign_app, EnrichFacts.writes_app.
      split_and!; [done| |right; by left].
      by rewrite <- !app_assoc.
  - rewrite EnrichFacts.set_items_run.
    intros [-> ->]%EnrichFacts.returned_inj.
    exists None, None, [EvSearch (build_query row); EvSleep].
    cbn [enrich_assignments].
    split_and!; [done| |by left].
    by rewrite <- !app_assoc.
Qed.

(** The two ways the loop body returns. *)
Lemma process_row_inv R st row t st' t' :
  process_row R st row t = (inr st', t') →
  (∃ fields,
     cache_hit st (normalize_address_key row) = Some fields
     ∧ st' = {| cache := cache st;
                enriched_rows := enriched_rows st
                  ++ [ <["places_status" := "CACHED"]> (fields ∪ row) ] |}
     ∧ t' = t ++ writes (map_to_list fields)
              ++ [EvSet "places_status" "CACHED"])
  ∨ (∃ enriched,
       cache_hit st (normalize_address_key row) = None
       ∧ enrich_row R row t = (inr enriched, t')
       ∧ st' = {| cache :=
                    if Str.truthy (normalize_address_key row)
                    then <[normalize_address_key row
                             := extract_places_fields enriched]> (cache st)
                    else cache st;
                  enriched_rows := enriched_rows st ++ [enriched] |}).
Proof.
  destruct (cache_hit st (normalize_address_key row)) as [fields|] eqn:Hhit.
  - rewrite (EnrichFacts.process_row_hit R st row t fields Hhit).
    intros [-> ->]%EnrichFacts.returned_inj. left. by exists fields.
  - unfold process_row. rewrite Hhit. unfold mbind, M_bind.
    destruct (enrich_row R row t) as [[e|enriched] t1] eqn:Hrun;
      [discriminate|].
    unfold mret, M_ret. intros [-> ->]%EnrichFacts.returned_inj.
    right. by exists enriched.
Qed.

Lemma main_loop_nil R st t st' t' :
  main_loop R st [] t = (inr st', t') → st' = st ∧ t' = t.
Proof. apply EnrichFacts.returned_inj. Qed.

Lemma main_loop_cons R st row rows t st' t' :
  main_loop R st (row :: rows) t = (inr st', t') →
  ∃ st1 t1, process_row R st row t = (inr st1, t1)
    ∧ main_loop R st1 rows t1 = (inr st', t').
Proof.
  cbn [main_loop]. unfold mbind, M_bind.
  destruct (process_row R st row t) as [[e|st1] t1]; [discriminate|].
  intros Hrest. by exists st1, t1.
Qed.

Lemma main_loop_app R st l1 l2 t :
  main_loop R st (l1 ++ l2) t
  = match main_loop R st l1 t with
    | (inl e, t') => (inl e, t')
    | (inr st', t') => main_loop R st' l2 t'
    end.
Proof.
  revert st t. induction l1 as [|row l1 IH]; intros st t; [done|].
  cbn [app main_loop]. unfold mbind, M_bind.
  destruct (process_row R st row t) as [[e|st1] t1]; [done|]. apply IH.
Qed.

(** *** What the loop body leaves of the record *)

Lemma hit_same_but_places (fields row : gmap string string) :
  (∀ k, is_Some (fields !! k) → is_places_field k = true) →
  same_but_places row (<["places_status" := "CACHED"]> (fields ∪ row)).
Proof.
  intros Hkeys k Hk. rewrite lookup_insert_ne by (intros <-; discriminate).
  apply lookup_union_r. destruct (fields !! k) as [v|] eqn:Hc; [|done].
  rewrite Hkeys in Hk by eauto. discriminate.
Qed.

Lemma enrich_row_same_but_places R row t row' t' :
  enrich_row R row t = (inr row', t') → same_but_places row row'.
Proof.
  intros (result & details & pre & -> & _)%EnrichFacts.enrich_row_inv k Hk.
  apply (EnrichFacts.lookup_assign_frame
           (λ k, is_places_field k = true)).
  - apply EnrichFacts.enrich_assignments_places.
  - congruence.
Qed.

Lemma same_but_places_key row out :
  same_but_places row out →
  normalize_address_key out = normalize_address_key row.
Proof.
  intros H. unfold normalize_address_key, address_composite, get.
  by rewrite !H by reflexivity.
Qed.

Lemma enrich_row_not_cached R row t row' t' :
  enrich_row R row t = (inr row', t') → served_from_cache row' = false.
Proof.
  intros (result & details & pre & -> & _)%EnrichFacts.enrich_row_inv.
  destruct (EnrichFacts.enrich_assignments_status
              (build_query row) result details row) as (v & Hv & Hin).
  unfold served_from_cache. rewrite Hv. apply bool_decide_eq_false.
  intros [= ->].
  repeat (apply elem_of_cons in Hin as [Hin|Hin]; [discriminate|]).
  by apply elem_of_nil in Hin.
Qed.

Lemma hit_cached (m : gmap string string) :
  served_from_cache (<["places_status" := "CACHED"]> m) = true.
Proof.
  unfold served_from_cache. apply bool_decide_eq_true, lookup_insert_eq.
Qed.

Lemma process_row_out R st row t st' t' :
  cache_ok (cache st) → process_row R st row t = (inr st', t') →
  ∃ out, enriched_rows st' = enriched_rows st ++ [out]
    ∧ same_but_places row out
    ∧ served_from_cache out
      = bool_decide (is_Some (cache_hit st (normalize_address_key row))).
Proof.
  intros Hok [(fields & Hhit & -> & _)|(enriched & Hmiss & Hen & ->)]%process_row_inv.
  - eexists. split_and!; [done| |].
    + apply hit_same_but_places.
      by destruct (Hok _ _ (EnrichFacts.cache_hit_lookup _ _ _ Hhit)).
    + rewrite hit_cached, Hhit. symmetry. apply bool_decide_eq_true. eauto.
  - exists enriched. split_and!; [done| |].
    + by eapply enrich_row_same_but_places.
    + rewrite (enrich_row_not_cached _ _ _ _ _ Hen), Hmiss. symmetry.
      apply bool_decide_eq_false. by intros [? ?].
Qed.

Lemma main_loop_out R rows st t st' t' :
  cache_ok (cache st) → main_loop R st rows t = (inr st', t') →
  ∃ outs, enriched_rows st' = enriched_rows st ++ outs
    ∧ Forall2 same_but_places rows outs.
Proof.
  revert st t. induction rows as [|row rows IH]; intros st t Hok.
  - intros [-> ->]%main_loop_nil. exists []. by rewrite app_nil_r.
  - intros (st1 & t1 & Hrow & Hrest)%main_loop_cons.
    destruct (process_row_out _ _ _ _ _ _ Hok Hrow) as (out & Hout & Hsame & _).
    destruct (IH st1 t1 (EnrichFacts.process_row_cache_ok _ _ _ _ _ _ Hok Hrow)
                Hrest) as (outs & Houts & Hall).
    exists (out :: outs). split; [|by constructor].
    by rewrite Houts, Hout, <- app_assoc.
Qed.

(** *** Remote calls and sleeps *)

Lemma polite_app t evs : polite t = true → polite (t ++ evs) = polite evs.
Proof.
  induction t as [|ev t IH]; [done|].
  cbn [polite app]. intros [Hev Ht]%andb_true_iff. rewrite (IH Ht).
  destruct (is_remote_call ev); [|done].
  by destruct t as [|[] t].
Qed.

Lemma polite_writes kvs : polite (writes kvs) = true.
Proof. by induction kvs as [|[k v] kvs IH]. Qed.

Lemma count_app p evs1 evs2 :
  count p (evs1 ++ evs2) = (count p evs1 + count p evs2)%nat.
Proof. unfold count. by rewrite List.filter_app, length_app. Qed.

Lemma count_writes p kvs :
  (∀ k v, p (EvSet k v) = false) → count p (writes kvs) = 0%nat.
Proof.
  intros Hp. unfold count.
  induction kvs as [|[k v] kvs IH]; [done|].
  rewrite EnrichFacts.writes_cons. cbn [List.filter]. by rewrite Hp.
Qed.

Lemma process_row_polite R st row t st' t' :
  process_row R st row t = (inr st', t') → polite t = true → polite t' = true.
Proof.
  intros [(fields & _ & _ & ->)|(enriched & _ & Hen & _)]%process_row_inv Ht.
  - rewrite (polite_app _ _ Ht).
    by rewrite (polite_app _ _ (polite_writes (map_to_list fields))).
  - apply enrich_row_calls in Hen as (result & details & pre & _ & -> & Hpre).
    rewrite (polite_app _ _ Ht).
    destruct Hpre as [->|[->|[place_id ->]]]; cbn [app polite is_remote_call andb];
      apply polite_writes.
Qed.

(** The events of one pass through the loop body and the record it
    appends. *)
Lemma process_row_calls R st row t st' t' :
  process_row R st row t = (inr st', t') →
  ∃ evs out, t' = t ++ evs ∧ enriched_rows st' = enriched_rows st ++ [out]
    ∧ (count is_search_call evs + (if served_from_cache out then 1 else 0)
       = 1)%nat
    ∧ (count is_details_call evs ≤ count is_search_call evs)%nat.
Proof.
  intros [(fields & _ & -> & ->)|(enriched & _ & Hen & ->)]%process_row_inv.
  - eexists _, _. split_and!; [done|done| |].
    + rewrite hit_cached, count_app, count_writes by done. done.
    + rewrite !count_app, !count_writes by done. done.
  - pose proof (enrich_row_not_cached _ _ _ _ _ Hen) as Hnc.
    apply enrich_row_calls in Hen as (result & details & pre & _ & -> & Hpre).
    eexists _, _. split_and!; [done|done| |].
    + rewrite Hnc, count_app, count_writes by done.
      by destruct Hpre as [->|[->|[place_id ->]]].
    + rewrite !count_app, !count_writes by done.
      destruct Hpre as [->|[->|[place_id ->]]]; cbn; lia.
Qed.

Lemma main_loop_calls R rows st t st' t' :
  main_loop R st rows t = (inr st', t') →
  ∃ evs outs, t' = t ++ evs ∧ enriched_rows st' = enriched_rows st ++ outs
    ∧ (count is_search_call evs + length (List.filter served_from_cache outs)
       = length rows)%nat
    ∧ (count is_details_call evs ≤ count is_search_call evs)%nat.
Proof.
  revert st t. induction rows as [|row rows IH]; intros st t.
  - intros [-> ->]%main_loop_nil. exists [], []. by rewrite !app_nil_r.
  - intros (st1 & t1 & Hrow & Hrest)%main_loop_cons.
    apply process_row_calls in Hrow as (evs1 & out & -> & Hout & Hs1 & Hd1).
    apply IH in Hrest as (evs & outs & -> & Houts & Hs & Hd).
    exists (evs1 ++ evs), (out :: outs). split_and!.
    + by rewrite app_assoc.
    + by rewrite Houts, Hout, <- app_assoc.
    + rewrite count_app. cbn [List.filter length].
      destruct (served_from_cache out); cbn [length]; lia.
    + rewrite !count_app. lia.
Qed.

(** *** The cache and the output *)

Lemma has_source_snoc outs x i out :
  has_source outs i out → has_source (outs ++ [x]) i out.
Proof.
  intros (j & src & Hlt & Hj & H). exists j, src.
  split; [done|]. split; [by apply lookup_app_l_Some|done].
Qed.

Lemma consistent_init : consistent init.
Proof.
  split; cbn [init cache enriched_rows].
  - apply EnrichFacts.cache_ok_empty.
  - intros key fields H. by rewrite lookup_empty in H.
  - intros j out H. by rewrite lookup_nil in H.
  - intros i out H. by rewrite lookup_nil in H.
  - intros i j out r H. by rewrite lookup_nil in H.
Qed.

Lemma process_row_consistent R st row t st' t' :
  consistent st → process_row R st row t = (inr st', t') → consistent st'.
Proof.
  intros [Hok Hsrc Hcomp Hrows Hfirst] Hrun.
  pose proof (EnrichFacts.process_row_cache_ok _ _ _ _ _ _ Hok Hrun) as Hok'.
  apply process_row_inv in Hrun
    as [(fields & Hhit & -> & _)|(enriched & Hmiss & Hen & ->)].
  - (* served from the cache *)
    pose proof (EnrichFacts.cache_hit_lookup _ _ _ Hhit) as Hc.
    destruct (Hok _ _ Hc) as [Hkeys _].
    pose proof (hit_same_but_places fields row Hkeys) as Hsame.
    pose proof (same_but_places_key _ _ Hsame) as Hk.
    destruct (Hsrc _ _ Hc) as (Hne & j0 & src & Hj0 & Hks & Hnc & Hf).
    split; cbn [cache enriched_rows] in *.
    + exact Hok'.
    + intros key f Hkf.
      destruct (Hsrc _ _ Hkf) as (? & j & s & Hj & ?). split; [done|].
      exists j, s. split; [by apply lookup_app_l_Some|done].
    + intros j out [[_ Hj]|[_ <-]]%lookup_snoc_Some Hout.
      * by eapply Hcomp.
      * rewrite Hk, Hc. eauto.
    + intros i out [[_ Hi]|[-> <-]]%lookup_snoc_Some Hout.
      * by apply has_source_snoc, Hrows.
      * exists j0, src. split_and!.
        -- by eapply lookup_lt_Some.
        -- by apply lookup_app_l_Some.
        -- by rewrite Hk.
        -- by rewrite Hk.
        -- done.
        -- intros k v Hp Hst Hv. rewrite lookup_insert_ne by done.
           apply lookup_union_Some_l. subst fields.
           by rewrite EnrichFacts.lookup_extract_places_fields, Hp.
    + intros i j out r [[Hlt Hi]|[-> <-]]%lookup_snoc_Some Hj Hji Hkr Hout.
      * rewrite lookup_app_l in Hj by lia.
        exact (Hfirst i j out r Hi Hj Hji Hkr Hout).
      * apply hit_cached.
  - (* looked up *)
    pose proof (enrich_row_same_but_places _ _ _ _ _ Hen) as Hsame.
    pose proof (same_but_places_key _ _ Hsame) as Hk.
    pose proof (enrich_row_not_cached _ _ _ _ _ Hen) as Hnc.
    assert (Hnone : normalize_address_key row ≠ "" →
                    cache st !! normalize_address_key row = None).
    { intros Hne%truthy_nonempty. unfold cache_hit in Hmiss.
      by rewrite Hne in Hmiss. }
    assert (Hold : ∀ i j out r, enriched_rows st !! j = Some r →
              (enriched_rows st ++ [enriched]) !! i = Some out →
              (j < i)%nat →
              normalize_address_key r = normalize_address_key out →
              normalize_address_key out ≠ "" → served_from_cache out = true).
    { intros i j out r Hj [[Hlt Hi]|[-> <-]]%lookup_snoc_Some Hji Hkr Hout.
      - exact (Hfirst i j out r Hi Hj Hji Hkr Hout).
      - rewrite Hk in Hkr, Hout. destruct (Hcomp j r Hj) as [f Hf].
        + by rewrite Hkr.
        + rewrite Hkr, Hnone in Hf by done. discriminate. }
    split; cbn [cache enriched_rows] in *.
    + exact Hok'.
    + intros key f Hkf.
      assert (Hcase : cache st !! key = Some f
                ∨ (key = normalize_address_key row ∧ key ≠ ""
                   ∧ f = extract_places_fields enriched)).
      { destruct (Str.truthy (normalize_address_key row)) eqn:Htr; [|by left].
        rewrite lookup_insert in Hkf. case_decide as Heq; [|by left].
        right. injection Hkf as <-. subst key.
        split_and!; [done|by apply truthy_nonempty|done]. }
      destruct Hcase as [Hkf'|(-> & Hne & ->)].
      * destruct (Hsrc _ _ Hkf') as (? & j & s & Hj & ?). split; [done|].
        exists j, s. split; [by apply lookup_app_l_Some|done].
      * split; [done|]. exists (length (enriched_rows st)), enriched.
        split_and!; [by apply list_lookup_middle|done|done|done].
    + intros j out Hj Hout.
      assert (Hcase : is_Some (cache st !! normalize_address_key out)
                ∨ normalize_address_key out = normalize_address_key row).
      { apply lookup_snoc_Some in Hj as [[_ Hj]|[_ <-]]; [|by right].
        left. by eapply Hcomp. }
      destruct (Str.truthy (normalize_address_key row)) eqn:Htr.
      * rewrite lookup_insert. case_decide; [eauto|].
        destruct Hcase as [?|?]; [done|congruence].
      * destruct Hcase as [?|Heq]; [done|].
        rewrite Heq in Hout. apply truthy_nonempty in Hout. congruence.
    + intros i out [[_ Hi]|[-> <-]]%lookup_snoc_Some Hout.
      * by apply has_source_snoc, Hrows.
      * congruence.
    + intros i j out r Hi Hj Hji Hkr Hout.
      assert (j < length (enriched_rows st))%nat as Hlt.
      { apply lookup_lt_Some in Hi. rewrite length_app in Hi. cbn in Hi. lia. }
      rewrite lookup_app_l in Hj by done. by eapply Hold.
Qed.

Lemma main_loop_consistent R rows st t st' t' :
  consistent st → main_loop R st rows t = (inr st', t') → consistent st'.
Proof.
  revert st t. induction rows as [|row rows IH]; intros st t Hst.
  - by intros [-> ->]%main_loop_nil.
  - intros (st1 & t1 & Hrow & Hrest)%main_loop_cons.
    eapply IH; [|exact Hrest]. by eapply process_row_consistent.
Qed.

End LoopFacts.

(** X11: a run of [main] that reaches the end of its loop has one output
    record for every record read, in the order read, and each output
    record has the value its input had in every field whose name does
    not start with [places_]. *)
Theorem main_loop_keeps_rows (R : Enrich.remote)
    (rows : list (gmap string string)) (t t' : list Enrich.event)
    (st : Enrich.state) :
  Enrich.main_loop R Enrich.init rows t = (inr st, t') →
  Forall2 Runs.same_but_places rows (Enrich.enriched_rows st).
Proof.
  intros Hrun.
  destruct (LoopFacts.main_loop_out R rows Enrich.init t st t'
              EnrichFacts.cache_ok_empty Hrun) as (outs & Houts & Hall).
  rewrite Houts. exact Hall.
Qed.

Lemma main_loop_keeps_rows_witness :
  Forall2 Runs.same_but_places [sunny_days; sunny_days]
    (Enrich.enriched_rows after_second).
Proof.
  apply (main_loop_keeps_rows no_service [sunny_days; sunny_days] []
           second_trace after_second).
  vm_refl.
Defined.

(** X12: in a run of the loop of [main] that returns, every request to
    the remote service is directly followed by a sleep. *)
Theorem main_loop_sleeps_after_calls (R : Enrich.remote)
    (rows : list (gmap string string)) (st st' : Enrich.state)
    (t t' : list Enrich.event) :
  Enrich.main_loop R st rows t = (inr st', t') →
  Runs.polite t = true → Runs.polite t' = true.
Proof.
  revert st t. induction rows as [|row rows IH]; intros st t.
  - by intros [-> ->]%LoopFacts.main_loop_nil.
  - intros (st1 & t1 & Hrow & Hrest)%LoopFacts.main_loop_cons Ht.
    eapply IH; [exact Hrest|]. by eapply LoopFacts.process_row_polite.
Qed.

Lemma main_loop_sleeps_after_calls_witness : Runs.polite second_trace = true.
Proof.
  apply (main_loop_sleeps_after_calls no_service [sunny_days; sunny_days]
           Enrich.init after_second [] second_trace).
  - vm_refl.
  - reflexivity.
Defined.

(** X13: a run of the loop of [main] that returns makes one text search
    for every output record that was not served from the cache and none
    for the others, and at most one details request for every text
    search. *)
Theorem main_loop_call_counts (R : Enrich.remote)
    (rows : list (gmap string string)) (t t' : list Enrich.event)
    (st : Enrich.state) :
  Enrich.main_loop R Enrich.init rows t = (inr st, t') →
  ∃ evs,
    t' = t ++ evs
    ∧ length (Enrich.enriched_rows st) = length rows
    ∧ (Runs.count Runs.is_search_call evs
       + length (List.filter Runs.served_from_cache (Enrich.enriched_rows st))
       = length rows)%nat
    ∧ (Runs.count Enrich.is_details_call evs
       ≤ Runs.count Runs.is_search_call evs)%nat.
Proof.
  intros Hrun.
  destruct (LoopFacts.main_loop_out R rows Enrich.init t st t'
              EnrichFacts.cache_ok_empty Hrun) as (outs' & Houts' & Hall).
  apply LoopFacts.main_loop_calls in Hrun as (evs & outs & -> & Houts & Hs & Hd).
  exists evs. split_and!; [done| |by rewrite Houts|done].
  rewrite Houts'. symmetry. apply (Forall2_length _ _ _ Hall).
Qed.

Lemma main_loop_call_counts_witness :
  ∃ evs,
    second_trace = [] ++ evs
    ∧ length (Enrich.enriched_rows after_second)
      = length [sunny_days; sunny_days]
    ∧ (Runs.count Runs.is_search_call evs
       + length (List.filter Runs.served_from_cache
                   (Enrich.enriched_rows after_second))
       = length [sunny_days; sunny_days])%nat
    ∧ (Runs.count Enrich.is_details_call evs
       ≤ Runs.count Runs.is_search_call evs)%nat.
Proof.
  apply (main_loop_call_counts no_service [sunny_days; sunny_days] []
           second_trace after_second).
  vm_refl.
Defined.

(** X14: in the output of a run of [main], a record marked ["CACHED"]
    comes after a record with the same, non-empty address key that was
    looked up, and carries every [places_*] field of that record but
    [places_status]. *)
Theorem cached_row_has_source (R : Enrich.remote)
    (rows : list (gmap string string)) (t t' : list Enrich.event)
    (st : Enrich.state) (i : nat) (out : gmap string string) :
  Enrich.main_loop R Enrich.init rows t = (inr st, t') →
  Enrich.enriched_rows st !! i = Some out →
  out !! "places_status" = Some "CACHED" →
  ∃ j src,
    (j < i)%nat
    ∧ Enrich.enriched_rows st !! j = Some src
    ∧ Enrich.normalize_address_key src = Enrich.normalize_address_key out
    ∧ Enrich.normalize_address_key out ≠ ""
    ∧ src !! "places_status" ≠ Some "CACHED"
    ∧ ∀ k v, Enrich.is_places_field k = true → k ≠ "places_status" →
             src !! k = Some v → out !! k = Some v.
Proof.
  intros Hrun Hi Hst.
  pose proof (LoopFacts.main_loop_consistent R rows Enrich.init t st t'
                LoopFacts.consistent_init Hrun) as Hcons.
  destruct (Runs.rows_source st Hcons i out Hi)
    as (j & src & Hlt & Hj & Hk & Hne & Hnc & Hrep).
  { by apply bool_decide_eq_true. }
  exists j, src. split_and!; try done.
  by apply bool_decide_eq_false in Hnc.
Qed.

Lemma cached_row_has_source_witness :
  ∃ j src,
    (j < 1)%nat
    ∧ Enrich.enriched_rows after_second !! j = Some src
    ∧ Enrich.normalize_address_key src
      = Enrich.normalize_address_key cached_sunny
    ∧ Enrich.normalize_address_key cached_sunny ≠ ""
    ∧ src !! "places_status" ≠ Some "CACHED"
    ∧ ∀ k v, Enrich.is_places_field k = true → k ≠ "places_status" →
             src !! k = Some v → cached_sunny !! k = Some v.
Proof.
  apply (cached_row_has_source no_service [sunny_days; sunny_days] []
           second_trace after_second 1 cached_sunny).
  - vm_refl.
  - reflexivity.
  - vm_refl.
Defined.

(** X15: only the first record of each non-empty address key is looked
    up: a record that follows one with the same non-empty key comes out
    marked ["CACHED"], its other fields as read. *)
Theorem repeated_key_served_from_cache (R : Enrich.remote)
    (rows : list (gmap string string)) (t t' : list Enrich.event)
    (st : Enrich.state) (i j : nat) (row r : gmap string string) :
  Enrich.main_loop R Enrich.init rows t = (inr st, t') →
  rows !! i = Some row → rows !! j = Some r → (j < i)%nat →
  Enrich.normalize_address_key r = Enrich.normalize_address_key row →
  Enrich.normalize_address_key row ≠ "" →
  ∃ out,
    Enrich.enriched_rows st !! i = Some out
    ∧ out !! "places_status" = Some "CACHED"
    ∧ Runs.same_but_places row out.
Proof.
  intros Hrun Hi Hj Hlt Hkey Hne.
  pose proof (LoopFacts.main_loop_consistent R rows Enrich.init t st t'
                LoopFacts.consistent_init Hrun) as Hcons.
  destruct (LoopFacts.main_loop_out R rows Enrich.init t st t'
              EnrichFacts.cache_ok_empty Hrun) as (outs & Houts & Hall).
  cbn [Enrich.init Enrich.enriched_rows app] in Houts.
  destruct (Forall2_lookup_l _ _ _ _ _ Hall Hi) as (out & Hout & Hsame).
  destruct (Forall2_lookup_l _ _ _ _ _ Hall Hj) as (out' & Hout' & Hsame').
  apply LoopFacts.same_but_places_key in Hsame as Hk.
  apply LoopFacts.same_but_places_key in Hsame' as Hk'.
  rewrite <- Houts in Hout, Hout'.
  exists out. split_and!; [done| |done].
  apply (bool_decide_eq_true_1 _).
  apply (Runs.rows_first st Hcons i j out out' Hout Hout' Hlt); congruence.
Qed.

Lemma repeated_key_served_from_cache_witness :
  ∃ out,
    Enrich.enriched_rows after_second !! 1%nat = Some out
    ∧ out !! "places_status" = Some "CACHED"
    ∧ Runs.same_but_places sunny_days out.
Proof.
  apply (repeated_key_served_from_cache no_service [sunny_days; sunny_days] []
           second_trace after_second 1 0 sunny_days sunny_days).
  - vm_refl.
  - reflexivity.
  - reflexivity.
  - lia.
  - reflexivity.
  - intros H. vm_compute in H. discriminate.
Defined.

(** X16: a text search that fails at HTTP level for a record that misses
    the cache ends the whole run with that error, whatever was enriched
    before: [main] makes no further request or assignment and writes no
    CSV. *)
Theorem http_error_aborts_run (R : Enrich.remote)
    (l1 l2 : list (gmap string string)) (row : gmap string string)
    (t0 t : list Enrich.event) (st : Enrich.state) :
  Enrich.main_loop R Enrich.init l1 t0 = (inr st, t) →
  Enrich.cache_hit st (Enrich.normalize_address_key row) = None →
  Enrich.text_search R t (Enrich.build_query row) = Enrich.HttpError →
  Enrich.main R (l1 ++ row :: l2) t0
  = (inl Enrich.HTTPError, t ++ [ Enrich.EvSearch (Enrich.build_query row) ]).
Proof.
  intros Hrun Hmiss Hresp.
  unfold Enrich.main, mbind, Enrich.M_bind.
  rewrite LoopFacts.main_loop_app, Hrun.
  cbn [Enrich.main_loop]. unfold mbind, Enrich.M_bind.
  unfold Enrich.process_row. rewrite Hmiss.
  unfold mbind, Enrich.M_bind, Enrich.enrich_row, mbind, Enrich.M_bind.
  unfold Enrich.places_text_search, mbind, Enrich.M_bind, Enrich.get_search.
  by rewrite Hresp.
Qed.

Lemma http_error_aborts_run_witness :
  Enrich.main flaky_service
    ([sunny_days] ++ only_name "Little Sprouts" :: [sunny_days]) []
  = (inl Enrich.HTTPError,
     first_trace
       ++ [ Enrich.EvSearch (Enrich.build_query (only_name "Little Sprouts")) ]).
Proof.
  apply (http_error_aborts_run flaky_service [sunny_days] [sunny_days]
           (only_name "Little Sprouts") [] first_trace after_first).
  - vm_refl.
  - vm_refl.
  - reflexivity.
Defined.

(** ** The files written *)

Module CsvFacts.
Import Scraper.

Lemma mapped_value_ext table (row1 row2 : gmap string string) k :
  (∀ src_col, src_col ∈ table.*1 → row1 !! src_col = row2 !! src_col) →
  mapped_value table row1 k = mapped_value table row2 k.
Proof.
  induction table as [|[src_col norm_col] rest IH]; intros Hagree; [done|].
  cbn [mapped_value]. rewrite IH.
  - rewrite (Hagree src_col); [done|]. cbn. by left.
  - intros s Hs. apply Hagree. cbn. by right.
Qed.

Lemma cell_normalize_row_ext (row1 row2 : gmap string string) k :
  (∀ src_col, src_col ∈ column_map.*1 → row1 !! src_col = row2 !! src_col) →
  cell (normalize_row row1 !! k) = cell (normalize_row row2 !! k).
Proof.
  intros Hagree. rewrite !ScraperFacts.lookup_normalize_row.
  rewrite (mapped_value_ext column_map row1 row2 k Hagree).
  destruct (mapped_value column_map row2 k); [done|].
  by case_decide.
Qed.

End CsvFacts.

(** X17: the enriched CSV loses nothing: it has one line for every
    record, every line is as wide as the header, the cell under a column
    is the record's value for that field, empty when the record has no
    such field, and every field of every record has its column. *)
Theorem enriched_csv_lossless (rows : list (gmap string string)) :
  let header := (Enrich.write_enriched rows (Enrich.fieldnames rows)).1 in
  let lines := (Enrich.write_enriched rows (Enrich.fieldnames rows)).2 in
  length lines = length rows
  ∧ Forall (λ line, length line = length header) lines
  ∧ (∀ i j row k, rows !! i = Some row → header !! j = Some k →
       ∃ line, lines !! i = Some line ∧ line !! j = Some (get row k))
  ∧ (∀ i row k v, rows !! i = Some row → row !! k = Some v →
       ∃ j line, header !! j = Some k ∧ lines !! i = Some line
                 ∧ line !! j = Some v).
Proof.
  cbn [Enrich.write_enriched fst snd].
  assert (Hcell : ∀ i j row k, rows !! i = Some row →
            Enrich.fieldnames rows !! j = Some k →
            ∃ line,
              ((λ row, (λ k, get row k) <$> Enrich.fieldnames rows) <$> rows)
                !! i = Some line
              ∧ line !! j = Some (get row k)).
  { intros i j row k Hi Hj. eexists. split.
    - rewrite list_lookup_fmap, Hi. reflexivity.
    - rewrite list_lookup_fmap, Hj. reflexivity. }
  split_and!.
  - apply length_fmap.
  - apply Forall_fmap, Forall_true. intros row. apply length_fmap.
  - exact Hcell.
  - intros i row k v Hi Hv.
    assert (k ∈ Enrich.fieldnames rows) as [j Hj]%list_elem_of_lookup_1.
    { apply elem_of_fieldnames. exists row.
      split; [by eapply list_elem_of_lookup_2|by exists v]. }
    destruct (Hcell i j row k Hi Hj) as (line & Hline & Hc).
    exists j, line. split_and!; [done|done|].
    rewrite Hc. unfold get. by rewrite Hv.
Qed.

(** X18: the normalized CSV depends on the fifteen source columns of the
    mapping table only: two exports whose rows agree on those columns
    give the same file, whatever other columns they carry. *)
Theorem normalized_csv_ignores_unmapped
    (reader1 reader2 : list (gmap string string)) :
  Forall2 (λ row1 row2 : gmap string string,
             ∀ src_col, src_col ∈ Scraper.column_map.*1 →
                        row1 !! src_col = row2 !! src_col)
    reader1 reader2 →
  Scraper.write_normalized_csv (Scraper.parse_providers reader1)
  = Scraper.write_normalized_csv (Scraper.parse_providers reader2).
Proof.
  intros Hagree. unfold Scraper.write_normalized_csv, Scraper.parse_providers.
  f_equal. induction Hagree as [|row1 row2 reader1 reader2 Hrow _ IH]; [done|].
  cbn [fmap list_fmap]. f_equal; [|exact IH].
  apply Forall_fmap_ext_1, Forall_forall. intros field _.
  by apply CsvFacts.cell_normalize_row_ext.
Qed.

Lemma normalized_csv_ignores_unmapped_witness :
  Scraper.write_normalized_csv (Scraper.parse_providers [sunny_days_noted])
  = Scraper.write_normalized_csv (Scraper.parse_providers [sunny_days_csv]).
Proof.
  apply (normalized_csv_ignores_unmapped [sunny_days_noted] [sunny_days_csv]).
  constructor; [|constructor].
  intros src_col Hsrc. unfold sunny_days_noted.
  apply lookup_insert_ne. intros <-.
  cbn in Hsrc.
  repeat (apply elem_of_cons in Hsrc as [Hsrc|Hsrc]; [discriminate|]).
  by apply elem_of_nil in Hsrc.
Defined.

(** ** The environment file *)

Module EnvFacts.
Import Env KeySpec.

Lemma load_line_mono environ line environ' :
  load_line environ line = Some environ' → environ ⊆ environ'.
Proof.
  unfold load_line.
  destruct (negb _ || _ || _); [by intros [= <-]|].
  destruct (split_eq (Str.strip line)) as [key value].
  destruct (Str.truthy (Str.strip key) && _) eqn:Hset; [|by intros [= <-]].
  destruct (has_nul _ || _); [done|]. intros [= <-].
  apply andb_true_iff in Hset as [_ Hnew%bool_decide_eq_true].
  by apply insert_subseteq.
Qed.

Lemma load_lines_mono lines environ environ' :
  load_lines lines environ = Some environ' → environ ⊆ environ'.
Proof.
  revert environ. induction lines as [|line rest IH]; intros environ.
  - by intros [= <-].
  - cbn [load_lines].
    destruct (load_line environ line) as [environ1|] eqn:Hline; [|done].
    intros Hrest. etrans; [by eapply load_line_mono|by apply IH].
Qed.

Lemma load_lines_app lines1 lines2 environ :
  load_lines (lines1 ++ lines2) environ
  = match load_lines lines1 environ with
    | Some environ1 => load_lines lines2 environ1
    | None => None
    end.
Proof.
  revert environ. induction lines1 as [|line rest IH]; intros environ; [done|].
  cbn [app load_lines]. by destruct (load_line environ line).
Qed.

(** A line that went through leaves nothing to do for a larger
    environment. *)
Lemma load_line_again environ line environ' larger :
  load_line environ line = Some environ' → environ' ⊆ larger →
  load_line larger line = Some larger.
Proof.
  unfold load_line.
  destruct (negb _ || _ || _); [done|].
  destruct (split_eq (Str.strip line)) as [key value].
  destruct (Str.truthy (Str.strip key)); [|done].
  cbn [andb]. intros Hline Hsub.
  assert (is_Some (environ' !! Str.strip key)) as [v Hv].
  { case_bool_decide as Hnew.
    - destruct (has_nul _ || _); [done|]. injection Hline as <-.
      rewrite lookup_insert_eq. eauto.
    - injection Hline as <-. by destruct (environ !! Str.strip key); eauto. }
  rewrite bool_decide_eq_false_2; [done|].
  by rewrite (lookup_weaken _ _ _ _ Hv Hsub).
Qed.

Lemma load_lines_again lines environ environ' larger :
  load_lines lines environ = Some environ' → environ' ⊆ larger →
  load_lines lines larger = Some larger.
Proof.
  revert environ. induction lines as [|line rest IH]; intros environ; [done|].
  cbn [load_lines].
  destruct (load_line environ line) as [environ1|] eqn:Hline; [|done].
  intros Hrest Hsub.
  rewrite (load_line_again environ line environ1 larger Hline).
  - by eapply IH.
  - etrans; [by eapply load_lines_mono|done].
Qed.

(** *** Lines of the form [NAME=value] *)

Lemma lstrip_no_word (s : string) : has_word s = false → Str.lstrip s = "".
Proof.
  induction s as [|c s IH]; [done|]. cbn [has_word Str.lstrip].
  by destruct (Str.isspace c).
Qed.

Lemma rstrip_no_word (s : string) : has_word s = false → Str.rstrip s = "".
Proof.
  intros Hs. unfold Str.rstrip.
  by rewrite lstrip_no_word by by rewrite StrFacts.has_word_rev.
Qed.

Lemma rstrip_fixed_has_word (b : string) :
  Str.rstrip b = b → b ≠ "" → has_word b = true.
Proof.
  intros Hb Hne. destruct (has_word b) eqn:Hw; [done|].
  rewrite rstrip_no_word in Hb by done. congruence.
Qed.

Lemma lstrip_app_fixed (a b : string) :
  Str.lstrip a = a → a ≠ "" → Str.lstrip (a +:+ b) = a +:+ b.
Proof.
  destruct a as [|c a]; [done|]. intros Ha _.
  change (String c a +:+ b) with (String c (a +:+ b)).
  cbn [Str.lstrip] in *. destruct (Str.isspace c); [|done].
  pose proof (StrFacts.lstrip_length a) as Hl. rewrite Ha in Hl.
  cbn [String.length] in Hl. lia.
Qed.

Lemma rstrip_app_fixed (a b : string) :
  Str.rstrip b = b → b ≠ "" → Str.rstrip (a +:+ b) = a +:+ b.
Proof.
  intros Hb Hne. induction a as [|c a IH]; [done|].
  change (String c a +:+ b) with (String c (a +:+ b)).
  rewrite StrFacts.rstrip_cons, StrFacts.has_word_app.
  rewrite (rstrip_fixed_has_word b Hb Hne), orb_true_r. by rewrite IH.
Qed.

Lemma strip_app_fixed (a b : string) :
  Str.strip a = a → a ≠ "" → Str.rstrip b = b → b ≠ "" →
  Str.strip (a +:+ b) = a +:+ b.
Proof.
  intros Ha Hne Hb Hbne. unfold Str.strip.
  rewrite lstrip_app_fixed; [by apply rstrip_app_fixed|..|done].
  rewrite <- Ha. apply StrFacts.lstrip_strip.
Qed.

Lemma rstrip_eq_value (value : string) :
  Str.strip value = value →
  Str.rstrip (String "=" value) = String "=" value.
Proof.
  intros Hv. rewrite StrFacts.rstrip_cons.
  destruct (has_word value) eqn:Hw.
  - by rewrite <- Hv at 1 2; rewrite StrFacts.rstrip_strip, Hv.
  - rewrite <- Hv, <- StrFacts.lstrip_strip, Hv.
    by rewrite lstrip_no_word.
Qed.

Lemma has_eq_app (a b : string) : has_eq (a +:+ b) = has_eq a || has_eq b.
Proof.
  induction a as [|c a IH]; [done|].
  change (String c a +:+ b) with (String c (a +:+ b)).
  cbn [has_eq]. by rewrite IH, orb_assoc.
Qed.

Lemma split_eq_app (name rest : string) :
  has_eq name = false → split_eq (name +:+ String "=" rest) = (name, rest).
Proof.
  induction name as [|c name IH]; [done|].
  change (String c name +:+ String "=" rest)
    with (String c (name +:+ String "=" rest)).
  cbn [has_eq split_eq]. intros [Hc Hn]%orb_false_iff.
  by rewrite Hc, IH.
Qed.

Lemma startswith_app (p : ascii) (a b : string) :
  a ≠ "" → Str.startswith (String p "") (a +:+ b)
           = Str.startswith (String p "") a.
Proof.
  destruct a as [|c a]; [done|]. intros _.
  change (String c a +:+ b) with (String c (a +:+ b)).
  unfold Str.startswith. cbn [String.prefix].
  destruct (ascii_dec p c); [|done].
  generalize (a +:+ b). intros s. by destruct s, a.
Qed.

(** What [load_line] does with [name=rest], for a clean [name]. *)
Lemma load_line_assignment environ name rest :
  name ≠ "" → Str.strip name = name → has_eq name = false →
  Str.startswith "#" name = false →
  Str.rstrip (String "=" rest) = String "=" rest →
  has_nul name = false →
  has_nul (strip_chars is_quote (Str.strip rest)) = false →
  environ !! name = None →
  load_line environ (name +:+ String "=" rest)
  = Some (<[name := strip_chars is_quote (Str.strip rest)]> environ).
Proof.
  intros Hne Hname Heq Hhash Hrest Hnul Hnulv Hnew. unfold load_line.
  rewrite strip_app_fixed by done.
  rewrite (startswith_app "#" name _ Hne), Hhash.
  rewrite has_eq_app. cbn [has_eq Ascii.eqb Bool.eqb andb orb].
  rewrite orb_true_r.
  replace (Str.truthy (name +:+ String "=" rest)) with true
    by by destruct name.
  cbn [negb orb]. rewrite split_eq_app by done. rewrite Hname.
  replace (Str.truthy name) with true by by destruct name.
  rewrite bool_decide_eq_true_2 by done. cbn [andb].
  by rewrite Hnul, Hnulv.
Qed.

Lemma lstrip_chars_snoc p (s : string) (c : ascii) :
  p c = true →
  lstrip_chars p (s +:+ String c "")
  = match lstrip_chars p s with
    | EmptyString => EmptyString
    | u => u +:+ String c ""
    end.
Proof.
  intros Hc. induction s as [|d s IH].
  - change ("" +:+ String c "") with (String c "").
    cbn [lstrip_chars]. by rewrite Hc.
  - change (String d s +:+ String c "") with (String d (s +:+ String c "")).
    cbn [lstrip_chars]. by destruct (p d).
Qed.

Lemma strip_chars_snoc p (s : string) (c : ascii) :
  p c = true → strip_chars p (s +:+ String c "") = strip_chars p s.
Proof.
  intros Hc. unfold strip_chars. rewrite lstrip_chars_snoc by done.
  destruct (lstrip_chars p s) as [|d u]; [done|].
  unfold rstrip_chars. rewrite StrFacts.rev_app_distr.
  change (String.rev (String c "")) with (String c "").
  change (String c "" +:+ String.rev (String d u))
    with (String c (String.rev (String d u))).
  cbn [lstrip_chars]. by rewrite Hc.
Qed.

Lemma has_nul_app (a b : string) : has_nul (a +:+ b) = has_nul a || has_nul b.
Proof.
  induction a as [|c a IH]; [done|].
  change (String c a +:+ b) with (String c (a +:+ b)).
  cbn [has_nul]. by rewrite IH, orb_assoc.
Qed.

End EnvFacts.

(** X19: [load_env_file] never changes a variable that is set already:
    when it returns, every variable of the process environment has the
    value it had. *)
Theorem load_env_file_keeps_environ (file : option string)
    (environ environ' : gmap string string) :
  Env.load_env_file file environ = Some environ' → environ ⊆ environ'.
Proof.
  destruct file as [text|]; cbn [Env.load_env_file].
  - apply EnvFacts.load_lines_mono.
  - by intros [= <-].
Qed.

Lemma load_env_file_keeps_environ_witness : shell_environ ⊆ shell_environ.
Proof.
  apply (load_env_file_keeps_environ (Some env_text)). vm_refl.
Defined.

(** X20: within the file the first assignment of a name wins: what the
    lines read so far have set, no later line changes. *)
Theorem load_lines_first_wins (lines1 lines2 : list string)
    (environ environ' : gmap string string) :
  Env.load_lines (lines1 ++ lines2) environ = Some environ' →
  ∃ environ1,
    Env.load_lines lines1 environ = Some environ1 ∧ environ1 ⊆ environ'.
Proof.
  rewrite EnvFacts.load_lines_app.
  destruct (Env.load_lines lines1 environ) as [environ1|]; [|done].
  intros Hrest. exists environ1. split; [done|].
  by eapply EnvFacts.load_lines_mono.
Qed.

Lemma load_lines_first_wins_witness :
  ∃ environ1,
    Env.load_lines ["# Google Places"; "GOOGLE_API_KEY = 'abc123'"] ∅
      = Some environ1
    ∧ environ1 ⊆ file_environ.
Proof.
  apply (load_lines_first_wins
           ["# Google Places"; "GOOGLE_API_KEY = 'abc123'"]
           ["GOOGLE_API_KEY=other"] ∅ file_environ).
  vm_refl.
Defined.

(** X21: loading is idempotent: reading the same file again into the
    environment it produced changes nothing and raises nothing. *)
Theorem load_env_file_idempotent (file : option string)
    (environ environ' : gmap string string) :
  Env.load_env_file file environ = Some environ' →
  Env.load_env_file file environ' = Some environ'.
Proof.
  destruct file as [text|]; cbn [Env.load_env_file]; [|done].
  intros Hload. by eapply EnvFacts.load_lines_again.
Qed.

Lemma load_env_file_idempotent_witness :
  Env.load_env_file (Some env_text) file_environ = Some file_environ.
Proof.
  apply (load_env_file_idempotent (Some env_text) ∅ file_environ). vm_refl.
Defined.

(** X22: a line [NAME=value], or the same with the value in double
    quotes, sets [NAME] to [value] when [NAME] is not set yet; for a name
    that is non-empty, free of ["="] and of surrounding whitespace and
    does not start with ["#"], and a value without whitespace or quote
    characters at its ends, both free of NUL. *)
Theorem load_line_sets (environ : gmap string string) (name value : string) :
  name ≠ "" → Str.strip name = name → Env.has_eq name = false →
  Str.startswith "#" name = false →
  Str.strip value = value → Env.strip_chars Env.is_quote value = value →
  Env.has_nul name = false → Env.has_nul value = false →
  environ !! name = None →
  Env.load_line environ (name +:+ "=" +:+ value)
  = Some (<[name := value]> environ)
  ∧ Env.load_line environ
      (name +:+ "=" +:+ String Html.dquote (value +:+ String Html.dquote ""))
    = Some (<[name := value]> environ).
Proof.
  intros Hne Hname Heq Hhash Hv Hq Hnul Hnulv Hnew.
  set (quoted := String Html.dquote (value +:+ String Html.dquote "")).
  assert (Hqs : Str.strip quoted = quoted).
  { unfold Str.strip, quoted.
    change (Str.lstrip (String Html.dquote ?s)) with (String Html.dquote s).
    change (String Html.dquote (value +:+ String Html.dquote ""))
      with (String Html.dquote value +:+ String Html.dquote "").
    by apply EnvFacts.rstrip_app_fixed. }
  assert (Hqq : Env.strip_chars Env.is_quote quoted = value).
  { unfold quoted, Env.strip_chars. cbn [Env.lstrip_chars].
    change (Env.is_quote Html.dquote) with true. cbn match.
    fold (Env.strip_chars Env.is_quote (value +:+ String Html.dquote "")).
    by rewrite EnvFacts.strip_chars_snoc. }
  split.
  - change (name +:+ "=" +:+ value) with (name +:+ String "=" value).
    rewrite EnvFacts.load_line_assignment; rewrite ?Hv, ?Hq; try done.
    by apply EnvFacts.rstrip_eq_value.
  - change (name +:+ "=" +:+ quoted) with (name +:+ String "=" quoted).
    rewrite EnvFacts.load_line_assignment; rewrite ?Hqs, ?Hqq; try done.
    by apply EnvFacts.rstrip_eq_value.
Qed.

Lemma load_line_sets_witness :
  Env.load_line ∅ ("GOOGLE_API_KEY" +:+ "=" +:+ "abc123")
  = Some (<["GOOGLE_API_KEY" := "abc123"]> ∅)
  ∧ Env.load_line ∅
      ("GOOGLE_API_KEY" +:+ "=" +:+
       String Html.dquote ("abc123" +:+ String Html.dquote ""))
    = Some (<["GOOGLE_API_KEY" := "abc123"]> ∅).
Proof.
  apply (load_line_sets ∅ "GOOGLE_API_KEY" "abc123");
    first [discriminate | reflexivity | vm_refl].
Defined.

(** ** Batch mode of the scraper *)

Module BatchFacts.
Import Batch.

Lemma downloads_app t1 t2 : downloads (t1 ++ t2) = downloads t1 ++ downloads t2.
Proof. unfold downloads. apply omap_app. Qed.

Lemma downloads_write_csv name file : downloads [EvWriteCsv name file] = [].
Proof. reflexivity. Qed.

Section Loop.
Variable replace_charrefs : string → string.
Variable read_csv : string → list (gmap string string).
Variable download : nat → string → option string.
Variable use_html : bool.
Variable sleeps : bool.

Local Abbreviation process_zip :=
  (process_zip replace_charrefs read_csv download use_html sleeps).
Local Abbreviation zip_loop :=
  (zip_loop replace_charrefs read_csv download use_html sleeps).
Local Abbreviation kept := (kept replace_charrefs read_csv use_html).

Lemma process_zip_spec idx more st zip_code t :
  combined_providers (process_zip idx more st zip_code t).1
    = combined_providers st ++ kept (download idx zip_code)
  ∧ csv_text (process_zip idx more st zip_code t).1
    = (if use_html then csv_text st
       else latest (csv_text st) [download idx zip_code])
  ∧ downloads (process_zip idx more st zip_code t).2
    = downloads t ++ [zip_code].
Proof.
  unfold Batch.process_zip, Batch.kept, Batch.keep_providers, latest.
  destruct (download idx zip_code) as [text|], use_html;
    try destruct (is_html_page text);
    cbn [negb fst snd csv_text combined_providers foldl];
    rewrite ?app_nil_r, ?downloads_app; cbn [downloads omap];
    try destruct (more && sleeps);
    rewrite ?app_nil_r; done.
Qed.

Lemma zip_loop_spec zip_codes idx st t :
  combined_providers (zip_loop idx st zip_codes t).1
    = combined_providers st
      ++ concat (kept <$> answers download idx zip_codes)
  ∧ csv_text (zip_loop idx st zip_codes t).1
    = (if use_html then csv_text st
       else latest (csv_text st) (answers download idx zip_codes))
  ∧ downloads (zip_loop idx st zip_codes t).2 = downloads t ++ zip_codes.
Proof.
  revert idx st t. induction zip_codes as [|zip_code rest IH]; intros idx st t.
  - cbn. rewrite !app_nil_r. by destruct use_html.
  - cbn [Batch.zip_loop answers fmap list_fmap concat].
    destruct (process_zip_spec idx (nonempty rest) st zip_code t)
      as (Hc & Hx & Hd).
    destruct (process_zip idx (nonempty rest) st zip_code t) as [st1 t1].
    cbn [fst snd] in Hc, Hx, Hd.
    destruct (IH (S idx) st1 t1) as (Hc' & Hx' & Hd').
    rewrite Hc', Hx', Hd', Hc, Hx, Hd. split_and!.
    + by rewrite <- app_assoc.
    + by destruct use_html.
    + by rewrite <- app_assoc.
Qed.

End Loop.

Lemma nonempty_true {A} (l : list A) : l ≠ [] → nonempty l = true.
Proof. by destruct l. Qed.

End BatchFacts.

(** X23: in batch mode with [--html], [main] never returns: having
    requested every ZIP code and written the combined file of the records
    it kept, it falls through to the CSV parsing that ends every mode,
    with no CSV text, and raises [AttributeError]. *)
Theorem batch_html_raises (replace_charrefs : string → string)
    (read_csv : string → list (gmap string string))
    (download : nat → string → option string) (sleeps : bool)
    (export_method zips_text : string) :
  Batch.zip_codes_of zips_text ≠ [] →
  ∃ t,
    Batch.batch replace_charrefs read_csv download true sleeps
      export_method zips_text
    = (Batch.Raised Batch.AttributeError,
       t ++ [ Batch.EvWriteCsv "mn_ccap_providers_all.csv"
                (Scraper.write_normalized_csv
                   (concat (Batch.kept replace_charrefs read_csv true
                              <$> Batch.answers download 1
                                    (Batch.zip_codes_of zips_text)))) ])
    ∧ Batch.downloads t = Batch.zip_codes_of zips_text.
Proof.
  intros Hzips. unfold Batch.batch.
  rewrite (BatchFacts.nonempty_true _ Hzips). cbn [negb andb].
  destruct (BatchFacts.zip_loop_spec replace_charrefs read_csv download true
              sleeps (Batch.zip_codes_of zips_text) 1
              {| Batch.csv_text := None; Batch.combined_providers := [] |} [])
    as (Hc & Hx & Hd).
  destruct (Batch.zip_loop _ _ _ _ _ _ _ _ _) as [st t].
  cbn [fst snd Batch.csv_text Batch.combined_providers app] in Hc, Hx, Hd.
  change (Batch.downloads []) with (@nil string) in Hd. cbn [app] in Hd.
  exists t. unfold Batch.finish. by rewrite Hx, Hc, Hd.
Qed.

Lemma batch_html_raises_witness :
  ∃ t,
    Batch.batch id toy_reader html_answers true true "GET" zips_text
    = (Batch.Raised Batch.AttributeError,
       t ++ [ Batch.EvWriteCsv "mn_ccap_providers_all.csv"
                (Scraper.write_normalized_csv
                   (concat (Batch.kept id toy_reader true
                              <$> Batch.answers html_answers 1
                                    (Batch.zip_codes_of zips_text)))) ])
    ∧ Batch.downloads t = Batch.zip_codes_of zips_text.
Proof.
  apply (batch_html_raises id toy_reader html_answers true "GET" zips_text).
  intros H. vm_compute in H. discriminate.
Defined.

(** X24: in batch mode over CSV exports, a request that fails, or a text
    that is an HTML page, costs its ZIP code only: every ZIP code is
    requested, once and in the order listed, and the combined file holds
    the records of all the other ZIP codes, in that order. *)
Theorem batch_skips_and_continues (replace_charrefs : string → string)
    (read_csv : string → list (gmap string string))
    (download : nat → string → option string) (sleeps : bool)
    (zips_text : string) :
  Batch.zip_codes_of zips_text ≠ [] →
  let run := Batch.batch replace_charrefs read_csv download false sleeps
               "POST" zips_text in
  Batch.downloads run.2 = Batch.zip_codes_of zips_text
  ∧ Batch.EvWriteCsv "mn_ccap_providers_all.csv"
      (Scraper.write_normalized_csv
         (concat (Batch.kept replace_charrefs read_csv false
                    <$> Batch.answers download 1
                          (Batch.zip_codes_of zips_text))))
    ∈ run.2.
Proof.
  intros Hzips. unfold Batch.batch.
  rewrite (BatchFacts.nonempty_true _ Hzips).
  cbn [negb andb]. rewrite bool_decide_eq_true_2 by done. cbn [negb].
  destruct (BatchFacts.zip_loop_spec replace_charrefs read_csv download false
              sleeps (Batch.zip_codes_of zips_text) 1
              {| Batch.csv_text := None; Batch.combined_providers := [] |} [])
    as (Hc & Hx & Hd).
  destruct (Batch.zip_loop _ _ _ _ _ _ _ _ _) as [st t].
  cbn [fst snd Batch.csv_text Batch.combined_providers app] in Hc, Hx, Hd.
  change (Batch.downloads []) with (@nil string) in Hd. cbn [app] in Hd.
  unfold Batch.finish. rewrite Hc.
  destruct (Batch.csv_text st); cbn [snd]; split.
  - rewrite !BatchFacts.downloads_app, Hd.
    rewrite !BatchFacts.downloads_write_csv. by rewrite !app_nil_r.
  - apply elem_of_app. left. apply elem_of_app. right. apply list_elem_of_here.
  - rewrite !BatchFacts.downloads_app, Hd.
    rewrite !BatchFacts.downloads_write_csv. by rewrite !app_nil_r.
  - apply elem_of_app. right. apply list_elem_of_here.
Qed.

Lemma batch_skips_and_continues_witness :
  let run := Batch.batch id toy_reader csv_answers false true "POST"
               zips_text in
  Batch.downloads run.2 = Batch.zip_codes_of zips_text
  ∧ Batch.EvWriteCsv "mn_ccap_providers_all.csv"
      (Scraper.write_normalized_csv
         (concat (Batch.kept id toy_reader false
                    <$> Batch.answers csv_answers 1
                          (Batch.zip_codes_of zips_text))))
    ∈ run.2.
Proof.
  apply (batch_skips_and_continues id toy_reader csv_answers true zips_text).
  intros H. vm_compute in H. discriminate.
Defined.

(** X25: in batch mode over CSV exports, the file
    [mn_ccap_providers.csv] that [main] writes last holds the records of
    one text only, the last one downloaded, whether or not the loop kept
    it; when every request failed there is no such text and [main]
    raises [AttributeError] after writing the combined file. *)
Theorem batch_last_file (replace_charrefs : string → string)
    (read_csv : string → list (gmap string string))
    (download : nat → string → option string) (sleeps : bool)
    (zips_text : string) :
  Batch.zip_codes_of zips_text ≠ [] →
  ∃ t,
    Batch.batch replace_charrefs read_csv download false sleeps "POST"
      zips_text
    = match Batch.latest None
              (Batch.answers download 1 (Batch.zip_codes_of zips_text)) with
      | Some text =>
          (Batch.Returned 0,
           t ++ [ Batch.EvWriteCsv "mn_ccap_providers.csv"
                    (Scraper.write_normalized_csv
                       (Scraper.parse_providers (read_csv text))) ])
      | None => (Batch.Raised Batch.AttributeError, t)
      end.
Proof.
  intros Hzips. unfold Batch.batch.
  rewrite (BatchFacts.nonempty_true _ Hzips).
  cbn [negb andb]. rewrite bool_decide_eq_true_2 by done. cbn [negb].
  destruct (BatchFacts.zip_loop_spec replace_charrefs read_csv download false
              sleeps (Batch.zip_codes_of zips_text) 1
              {| Batch.csv_text := None; Batch.combined_providers := [] |} [])
    as (_ & Hx & _).
  destruct (Batch.zip_loop _ _ _ _ _ _ _ _ _) as [st t].
  cbn [fst Batch.csv_text] in Hx. unfold Batch.finish. rewrite Hx.
  eexists. by destruct (Batch.latest _ _).
Qed.

Lemma batch_last_file_witness :
  ∃ t,
    Batch.batch id toy_reader csv_answers false true "POST" zips_text
    = match Batch.latest None
              (Batch.answers csv_answers 1 (Batch.zip_codes_of zips_text)) with
      | Some text =>
          (Batch.Returned 0,
           t ++ [ Batch.EvWriteCsv "mn_ccap_providers.csv"
                    (Scraper.write_normalized_csv
                       (Scraper.parse_providers (toy_reader text))) ])
      | None => (Batch.Raised Batch.AttributeError, t)
      end.
Proof.
  apply (batch_last_file id toy_reader csv_answers true zips_text).
  intros H. vm_compute in H. discriminate.
Defined.
